(** * The symbol table of MSPDebug ([stab.c]): a shallow embedding

    [stab.c] keeps two ordered indexes over the same symbols: [sym], keyed
    by name and holding the address, and [addr], keyed by the pair
    (address, name) and holding nothing.  The definitions below follow the
    C functions one by one; the B+Tree they call ([btree.h]) is modelled as
    an ordered association list with a cursor. *)

From Stdlib Require Import ZArith List Bool Lia Sorted.
From Stdlib Require Import Strings.Byte.
Import ListNotations.

Local Open Scope Z_scope.

(** ** C strings *)

(** A [char *] argument is modelled by the list of bytes found at the
    pointer.  The string it denotes ends before the first NUL byte, or at
    the end of the list when there is none. *)

Definition uchar (b : byte) : Z := Z.of_N (Byte.to_N b).

Definition is_nul (b : byte) : bool := uchar b =? 0.

Fixpoint strlen (text : list byte) : nat :=
  match text with
  | [] => O
  | b :: rest => if is_nul b then O else S (strlen rest)
  end.

(** [strcmp] on two string contents (no terminator inside): bytes compare
    as [unsigned char]; a string that ends first meets the other's byte
    with its terminator and is the smaller one. *)
Fixpoint strcmp (l r : list byte) : Z :=
  match l, r with
  | [], [] => 0
  | [], _ :: _ => -1
  | _ :: _, [] => 1
  | a :: l', b :: r' =>
      if uchar a =? uchar b then strcmp l' r' else uchar a - uchar b
  end.

(** [memcpy (dst, src, len); dst[len] = 0] seen as the string left in
    [dst]. *)
Definition memcpy_str (text : list byte) (len : nat) : list byte :=
  firstn len text.

(** [strncpy (dst, src, n)]: exactly [n] bytes are written, the string
    [src] first and NUL bytes after it. *)
Definition strncpy (dst src : list byte) (n : nat) : list byte :=
  firstn n (src ++ repeat x00 n) ++ skipn n dst.

(** [buf[i] = b]; a store outside the buffer is not modelled (it is
    undefined in C) and leaves the list as it is. *)
Definition store (buf : list byte) (i : Z) (b : byte) : list byte :=
  if (0 <=? i) && (i <? Z.of_nat (length buf))
  then firstn (Z.to_nat i) buf ++ b :: skipn (S (Z.to_nat i)) buf
  else buf.

(** The string a buffer holds. *)
Definition c_str (buf : list byte) : list byte := firstn (strlen buf) buf.

(** ** Keys of the two indexes *)

(** [sizeof (key->name)] *)
Definition NAME_SIZE : nat := 64.

(** [struct sym_key]: [name] is the string held in the 64-byte array.
    The bytes behind its terminator are never read: the keys are compared
    with [strcmp] and copied out with [strncpy]. *)
Record sym_key := { sym_name : list byte }.

Definition sym_key_zero : sym_key := {| sym_name := [] |}.

Definition sym_key_compare (left right : sym_key) : Z :=
  strcmp (sym_name left) (sym_name right).

(** [int] has 32 bits, on the 32-bit and the 64-bit platforms the tool is
    built for.  A [size_t] value that does not fit is reduced modulo 2^32
    when it is stored in an [int], as the compilers of these platforms
    do. *)
Definition INT_MAX : Z := 2147483647.

Definition to_int (v : Z) : Z :=
  (v + 2147483648) mod 4294967296 - 2147483648.

(** [len >= sizeof (key->name)] with [len] an [int]: the comparison is
    made in [size_t], where a negative [len] is above every size. *)
Definition ge_sizeof (len : Z) (size : nat) : bool :=
  (len <? 0) || (Z.of_nat size <=? len).

Definition sym_key_init (text : list byte) : sym_key :=
  let len := to_int (Z.of_nat (strlen text)) in
  let len := if ge_sizeof len NAME_SIZE then Z.of_nat NAME_SIZE - 1 else len in
  {| sym_name := memcpy_str text (Z.to_nat len) |}.

(** [struct addr_key], with [name] as in [sym_key]; [addr] is an
    [address_t], an unsigned integer kept as its value in [Z]. *)
Record addr_key := { ak_addr : Z; ak_name : list byte }.

Definition addr_key_zero : addr_key := {| ak_addr := 0; ak_name := [] |}.

Definition addr_key_compare (left right : addr_key) : Z :=
  if ak_addr left <? ak_addr right then -1
  else if ak_addr left >? ak_addr right then 1
  else strcmp (ak_name left) (ak_name right).

Definition addr_key_init (addr : Z) (text : list byte) : addr_key :=
  let len := to_int (Z.of_nat (strlen text)) in
  let len := if ge_sizeof len NAME_SIZE then Z.of_nat NAME_SIZE - 1 else len in
  {| ak_addr := addr; ak_name := memcpy_str text (Z.to_nat len) |}.

(** The probe of [stab_nearest]: all 64 bytes of [name] are 0xff and no
    terminator is stored.  Against a stored name (at most 63 bytes and a
    terminator) [strcmp] stops inside the array. *)
Definition probe_name : list byte := repeat xff NAME_SIZE.

(** ** The ordered index *)

(** [struct btree_def], as [sym_table_def] and [addr_table_def] fill it;
    [key_size] and [data_size] describe the memory layout only and are
    left out. *)
Record btree_def (K : Type) := {
  compare : K -> K -> Z;
  zero : K;
  branches : Z
}.
Arguments compare {K} _ _ _.
Arguments zero {K} _.
Arguments branches {K} _.

Definition sym_table_def : btree_def sym_key := {|
  compare := sym_key_compare;
  zero := sym_key_zero;
  branches := 32
|}.

Definition addr_table_def : btree_def addr_key := {|
  compare := addr_key_compare;
  zero := addr_key_zero;
  branches := 32
|}.

(** What the index asks of a comparison function: a total order on the
    keys, given by the sign of the result. *)
Class btree_order {K : Type} (cmp : K -> K -> Z) : Prop := {
  cmp_eq : forall x y, cmp x y = 0 <-> x = y;
  cmp_flip : forall x y, cmp x y < 0 <-> 0 < cmp y x;
  cmp_trans : forall x y z, cmp x y < 0 -> cmp y z < 0 -> cmp x z < 0
}.

(** Modelled from the spec: [btree_t] of [btree.h], which is not among the
    sources.  The spec asks for an ordered associative container with
    unique keys; the model is the list of its records in ascending key
    order together with the position the last [seek] left. *)
Record btree (K V : Type) := {
  items : list (K * V);
  cursor : option nat
}.
Arguments items {K V} _.
Arguments cursor {K V} _.

(** Modelled from the spec: the modes of [seek] that [stab.c] uses. *)
Inductive btree_selmode_t := BTREE_LE | BTREE_NEXT | BTREE_FIRST.

Section BTree.
Context {K V : Type}.
Variable def : btree_def K.

(** Modelled from the spec: exact lookup in the ordered list of records. *)
Fixpoint items_get (l : list (K * V)) (key : K) : option V :=
  match l with
  | [] => None
  | (k, v) :: l' => if compare def key k =? 0 then Some v else items_get l' key
  end.

(** Modelled from the spec: insert in key order; a record with an equal
    key is replaced. *)
Fixpoint items_put (l : list (K * V)) (key : K) (data : V) : list (K * V) :=
  match l with
  | [] => [(key, data)]
  | (k, v) :: l' =>
      if compare def key k <? 0 then (key, data) :: (k, v) :: l'
      else if compare def key k =? 0 then (key, data) :: l'
      else (k, v) :: items_put l' key data
  end.

(** Modelled from the spec: removal of the record with an equal key. *)
Fixpoint items_delete (l : list (K * V)) (key : K) : list (K * V) :=
  match l with
  | [] => []
  | (k, v) :: l' =>
      if compare def key k =? 0 then l' else (k, v) :: items_delete l' key
  end.

(** Modelled from the spec: the [LESS_OR_EQUAL] seek, the position of the
    last record whose key is not above [key]. *)
Fixpoint items_le (l : list (K * V)) (key : K) : option nat :=
  match l with
  | [] => None
  | (k, _) :: l' =>
      if compare def k key <=? 0
      then match items_le l' key with
           | Some i => Some (S i)
           | None => Some O
           end
      else None
  end.

(** Modelled from the spec: [btree_alloc], the empty index. *)
Definition btree_alloc : btree K V := {| items := []; cursor := None |}.

(** Modelled from the spec: [btree_clear]. *)
Definition btree_clear (bt : btree K V) : btree K V :=
  {| items := []; cursor := None |}.

(** Modelled from the spec: [btree_get], exact lookup; [Some data] stands
    for the return value 0 with [data] written, [None] for not found. *)
Definition btree_get (bt : btree K V) (key : K) : option V :=
  items_get (items bt) key.

(** Modelled from the spec: [btree_put], insert with upsert semantics.
    The spec lets it fail; [alloc] says whether the memory it asks for is
    granted.  A failed insert returns -1 and stores nothing; a change of
    the index leaves no seek position. *)
Definition btree_put (alloc : bool) (bt : btree K V) (key : K) (data : V)
  : btree K V * Z :=
  if alloc
  then ({| items := items_put (items bt) key data; cursor := None |}, 0)
  else (bt, -1).

(** Modelled from the spec: [btree_delete]; 0 when the key was removed,
    1 when it was not there. *)
Definition btree_delete (bt : btree K V) (key : K) : btree K V * Z :=
  match items_get (items bt) key with
  | Some _ => ({| items := items_delete (items bt) key; cursor := None |}, 0)
  | None => (bt, 1)
  end.

(** Modelled from the spec: [btree_select], the spec's [seek].  [Some]
    stands for the return value 0 with the record written to [key_ret]
    and [data_ret]. *)
Definition btree_select (bt : btree K V) (key : option K)
           (mode : btree_selmode_t) : btree K V * option (K * V) :=
  let at_pos (pos : option nat) :=
    match pos with
    | Some i =>
        match nth_error (items bt) i with
        | Some kv => ({| items := items bt; cursor := Some i |}, Some kv)
        | None => ({| items := items bt; cursor := None |}, None)
        end
    | None => ({| items := items bt; cursor := None |}, None)
    end in
  match mode with
  | BTREE_FIRST => at_pos (Some O)
  | BTREE_NEXT => at_pos (option_map S (cursor bt))
  | BTREE_LE =>
      match key with
      | Some k => at_pos (items_le (items bt) k)
      | None => at_pos None
      end
  end.

Fixpoint sortedb (l : list K) : bool :=
  match l with
  | [] => true
  | k :: l' => forallb (fun k' => compare def k k' <? 0) l' && sortedb l'
  end.

Definition keys (bt : btree K V) : list K := map fst (items bt).

Definition btree_sorted (bt : btree K V) : bool := sortedb (keys bt).

End BTree.

(** ** The symbol table *)

(** [struct stab] *)
Record stab := {
  sym : btree sym_key Z;
  addr : btree addr_key unit
}.

(** What [stab_enum] hands back: the table (the seek position has moved),
    the visitor's data, the return value. *)
Definition enum_result (U : Type) : Type := stab * U * Z.

Section Stab.
(** [address_t] comes from [util.h], which is not among the sources: an
    unsigned integer type of [address_bits] bits. *)
Variable address_bits : N.

Definition to_address (v : Z) : Z := v mod 2 ^ Z.of_N address_bits.

Definition is_address (a : Z) : bool :=
  (0 <=? a) && (a <? 2 ^ Z.of_N address_bits).

(** [stab_new] when the three allocations succeed. *)
Definition stab_new : stab :=
  {| sym := btree_alloc; addr := btree_alloc |}.

Definition stab_clear (st : stab) : stab :=
  {| sym := btree_clear (sym st); addr := btree_clear (addr st) |}.

(** [alloc_addr] and [alloc_sym] are the outcomes of the allocations of
    the two [btree_put] calls, in the order of the calls.  The message of
    [printc_err] is not modelled. *)
Definition stab_set (alloc_addr alloc_sym : bool)
           (st : stab) (name : list byte) (value : Z) : stab * Z :=
  let skey := sym_key_init name in
  let new_addr := to_address value in
  let st_addr :=
    match btree_get sym_table_def (sym st) skey with
    | Some old_addr =>
        let akey := addr_key_init old_addr (sym_name skey) in
        fst (btree_delete addr_table_def (addr st) akey)
    | None => addr st
    end in
  let akey := addr_key_init new_addr name in
  let (st_addr, r) := btree_put addr_table_def alloc_addr st_addr akey tt in
  if r <? 0 then ({| sym := sym st; addr := st_addr |}, -1)
  else
    let (st_sym, r) := btree_put sym_table_def alloc_sym (sym st) skey new_addr in
    if r <? 0 then ({| sym := st_sym; addr := st_addr |}, -1)
    else ({| sym := st_sym; addr := st_addr |}, 0).

(** The result carries the return value and the contents of [ret_name]
    and [*ret_offset] after the call. *)
Definition stab_nearest (st : stab) (address : Z) (ret_name : list byte)
           (max_len : Z) (ret_offset : Z) : stab * Z * list byte * Z :=
  let akey := {| ak_addr := address; ak_name := probe_name |} in
  match btree_select addr_table_def (addr st) (Some akey) BTREE_LE with
  | (bt, Some (akey, _)) =>
      let ret_name := strncpy ret_name (ak_name akey) (Z.to_nat max_len) in
      let ret_name := store ret_name (max_len - 1) x00 in
      ({| sym := sym st; addr := bt |}, 0, ret_name,
       to_address (address - ak_addr akey))
  | (bt, None) => ({| sym := sym st; addr := bt |}, -1, ret_name, ret_offset)
  end.

(** The result carries the return value and the contents of [*value]
    after the call. *)
Definition stab_get (st : stab) (name : list byte) (value : Z) : Z * Z :=
  let skey := sym_key_init name in
  match btree_get sym_table_def (sym st) skey with
  | None => (-1, value)
  | Some a => (0, a)
  end.

Definition stab_del (st : stab) (name : list byte) : stab * Z :=
  let skey := sym_key_init name in
  match btree_get sym_table_def (sym st) skey with
  | None => (st, -1)
  | Some value =>
      let akey := addr_key_init value name in
      ({| sym := fst (btree_delete sym_table_def (sym st) skey);
          addr := fst (btree_delete addr_table_def (addr st) akey) |}, 0)
  end.

(** The visitor [cb] works on its [user_data] and does not touch the
    table.  The [while] loop is unrolled [fuel] times; [None] means the
    fuel ran out. *)
Fixpoint stab_enum_loop {U : Type} (fuel : nat) (bt : btree addr_key unit)
         (ret : option (addr_key * unit))
         (cb : U -> list byte -> Z -> U * Z) (user_data : U)
  : option (btree addr_key unit * U * Z) :=
  match fuel with
  | O => None
  | S fuel' =>
      match ret with
      | None => Some (bt, user_data, 0)
      | Some (akey, _) =>
          let (user_data', r) := cb user_data (ak_name akey) (ak_addr akey) in
          if r <? 0 then Some (bt, user_data', -1)
          else
            let (bt', ret') := btree_select addr_table_def bt None BTREE_NEXT in
            stab_enum_loop fuel' bt' ret' cb user_data'
      end
  end.

Definition stab_enum {U : Type} (fuel : nat) (st : stab)
           (cb : U -> list byte -> Z -> U * Z) (user_data : U)
  : option (enum_result U) :=
  let (bt, ret) := btree_select addr_table_def (addr st) None BTREE_FIRST in
  match stab_enum_loop fuel bt ret cb user_data with
  | Some (bt', user_data', r) =>
      Some ({| sym := sym st; addr := bt' |}, user_data', r)
  | None => None
  end.

(** ** Well-formed tables *)

(** A stored name fits the array with its terminator and has no NUL
    inside. *)
Definition name_ok (n : list byte) : bool :=
  (length n <? NAME_SIZE)%nat && forallb (fun b => negb (is_nul b)) n.

(** Both indexes are in strictly ascending key order, and every key is
    one the [_init] functions can build. *)
Definition stab_wf (st : stab) : bool :=
  btree_sorted sym_table_def (sym st)
  && btree_sorted addr_table_def (addr st)
  && forallb (fun kv => name_ok (sym_name (fst kv)) && is_address (snd kv))
             (items (sym st))
  && forallb (fun kv => name_ok (ak_name (fst kv))
                        && is_address (ak_addr (fst kv)))
             (items (addr st)).

Definition opt_addr_eqb (o : option Z) (a : Z) : bool :=
  match o with
  | Some a' => a' =? a
  | None => false
  end.

Definition has_key {V : Type} (def : btree_def addr_key)
           (bt : btree addr_key V) (k : addr_key) : bool :=
  match btree_get def bt k with
  | Some _ => true
  | None => false
  end.

(** The two indexes hold the same symbols. *)
Definition stab_consistent (st : stab) : bool :=
  forallb (fun kv =>
             has_key addr_table_def (addr st)
                     {| ak_addr := snd kv; ak_name := sym_name (fst kv) |})
          (items (sym st))
  && forallb (fun kv =>
                opt_addr_eqb
                  (btree_get sym_table_def (sym st)
                             {| sym_name := ak_name (fst kv) |})
                  (ak_addr (fst kv)))
             (items (addr st)).

(** ** Vocabulary of the properties *)

(** The key a name is stored under: what [sym_key_init] leaves in
    [key->name]. *)
Definition key_of (text : list byte) : list byte :=
  sym_name (sym_key_init text).

(** The number of bytes the [_init] functions copy from a name. *)
Definition key_len (text : list byte) : nat :=
  let len := to_int (Z.of_nat (strlen text)) in
  Z.to_nat (if ge_sizeof len NAME_SIZE then Z.of_nat NAME_SIZE - 1 else len).

(** Exact lookup of a stored name in the name index. *)
Definition lookup (st : stab) (n : list byte) : option Z :=
  btree_get sym_table_def (sym st) {| sym_name := n |}.

(** The keys of the address index, in index order. *)
Definition entries (st : stab) : list addr_key := keys (addr st).

Definition entry (st : stab) (a : Z) (n : list byte) : Prop :=
  In {| ak_addr := a; ak_name := n |} (entries st).

(** How many times the pair (a, n) occurs in the address index. *)
Definition occurrences (st : stab) (a : Z) (n : list byte) : nat :=
  length (filter (fun k => (ak_addr k =? a) && (strcmp (ak_name k) n =? 0))
                 (entries st)).

(** Two tables with the same records; they may differ in the seek
    positions only. *)
Definition same_records (st st' : stab) : Prop :=
  items (sym st') = items (sym st) /\ items (addr st') = items (addr st).

(** The record [stab_nearest] gets from the index for a query address. *)
Definition nearest_entry (st : stab) (address : Z) : option addr_key :=
  option_map fst
    (snd (btree_select addr_table_def (addr st)
            (Some {| ak_addr := address; ak_name := probe_name |}) BTREE_LE)).

(** The cross-index invariant, in the words of the spec. *)
Definition cross_index_consistent (st : stab) : Prop :=
  forall n a,
    In ({| sym_name := n |}, a) (items (sym st)) ->
    occurrences st a n = 1%nat /\ forall a', entry st a' n -> a' = a.

(** The tables that calls of the public functions produce, starting from
    a new or a cleared table, as long as every [stab_set] returns 0. *)
Inductive stab_history : stab -> Prop :=
| hist_new : stab_history stab_new
| hist_clear (st : stab) : stab_history (stab_clear st)
| hist_set (st st' : stab) (alloc_addr alloc_sym : bool)
           (name : list byte) (value : Z) :
    stab_history st ->
    stab_set alloc_addr alloc_sym st name value = (st', 0) ->
    stab_history st'
| hist_del (st st' : stab) (name : list byte) (r : Z) :
    stab_history st ->
    stab_del st name = (st', r) ->
    stab_history st'
| hist_nearest (st st' : stab) (address : Z) (ret_name ret_name' : list byte)
               (max_len ret_offset ret_offset' r : Z) :
    stab_history st ->
    stab_nearest st address ret_name max_len ret_offset
    = (st', r, ret_name', ret_offset') ->
    stab_history st'
| hist_enum (U : Type) (st st' : stab) (fuel : nat)
            (cb : U -> list byte -> Z -> U * Z) (u u' : U) (r : Z) :
    stab_history st ->
    stab_enum fuel st cb u = Some (st', u', r) ->
    stab_history st'.

(** The order of enumeration: address ascending, then name ascending. *)
Definition entry_before (x y : addr_key) : Prop :=
  ak_addr x < ak_addr y \/
  (ak_addr x = ak_addr y /\ strcmp (ak_name x) (ak_name y) < 0).

(** The visitor's data after it was called on each of [es] in turn. *)
Definition calls {U : Type} (cb : U -> list byte -> Z -> U * Z)
           (user_data : U) (es : list addr_key) : U :=
  fold_left (fun u e => fst (cb u (ak_name e) (ak_addr e))) es user_data.

(** The visitor accepts every one of [es], called on them in turn. *)
Definition accepts {U : Type} (cb : U -> list byte -> Z -> U * Z)
           (user_data : U) (es : list addr_key) : Prop :=
  forall pre e post,
    es = pre ++ e :: post ->
    0 <= snd (cb (calls cb user_data pre) (ak_name e) (ak_addr e)).

(** Written from the spec's words: the entries are handed to the visitor
    in order until one is refused. *)
Fixpoint deliver {U : Type} (cb : U -> list byte -> Z -> U * Z)
         (user_data : U) (es : list addr_key) : U * Z :=
  match es with
  | [] => (user_data, 0)
  | e :: es' =>
      let (user_data', r) := cb user_data (ak_name e) (ak_addr e) in
      if r <? 0 then (user_data', -1) else deliver cb user_data' es'
  end.

(** The predecessor of a query address: an entry at the greatest stored
    address not above [q], with the last name among those at that
    address. *)
Definition predecessor (st : stab) (q a : Z) (n : list byte) : Prop :=
  entry st a n /\ a <= q /\
  (forall e, In e (entries st) -> ak_addr e <= q -> ak_addr e <= a) /\
  (forall n', entry st a n' -> strcmp n' n <= 0).

(** [stab_nearest] returns the name of the predecessor. *)
Definition nearest_returns_name (st : stab) (q : Z) (ret_name : list byte)
           (max_len ret_offset : Z) : Prop :=
  (exists e, In e (entries st) /\ ak_addr e <= q) ->
  exists st' ret_name' a n,
    stab_nearest st q ret_name max_len ret_offset = (st', 0, ret_name', q - a)
    /\ predecessor st q a n /\ c_str ret_name' = n.

(** [stab_nearest] returns the name of the predecessor cut to the
    [max_len - 1] bytes the caller's buffer takes. *)
Definition nearest_returns_cut_name (st : stab) (q : Z) (ret_name : list byte)
           (max_len ret_offset : Z) : Prop :=
  (exists e, In e (entries st) /\ ak_addr e <= q) ->
  exists st' ret_name' a n,
    stab_nearest st q ret_name max_len ret_offset = (st', 0, ret_name', q - a)
    /\ predecessor st q a n
    /\ c_str ret_name' = firstn (Z.to_nat (max_len - 1)) n
    /\ (Z.of_nat (length n) < max_len -> c_str ret_name' = n).

(** Round trip and overwrite for a name [n] and two addresses: the entry
    of the first address is gone after the second [stab_set]. *)
Definition roundtrip_overwrite (st : stab) (n : list byte) (a1 a2 : Z) : Prop :=
  forall alloc1 alloc2 st1,
    stab_set alloc1 alloc2 st n a1 = (st1, 0) ->
    (forall v, stab_get st1 n v = (0, a1)) /\
    forall alloc3 alloc4 st2,
      stab_set alloc3 alloc4 st1 n a2 = (st2, 0) ->
      (forall v, stab_get st2 n v = (0, a2)) /\ ~ entry st2 a1 (key_of n).

(** The same, where the entry of the first address is gone when the two
    addresses differ. *)
Definition roundtrip_overwrite_distinct (st : stab) (n : list byte)
           (a1 a2 : Z) : Prop :=
  forall alloc1 alloc2 st1,
    stab_set alloc1 alloc2 st n a1 = (st1, 0) ->
    (forall v, stab_get st1 n v = (0, a1)) /\
    forall alloc3 alloc4 st2,
      stab_set alloc3 alloc4 st1 n a2 = (st2, 0) ->
      (forall v, stab_get st2 n v = (0, a2)) /\
      (a1 <> a2 -> ~ entry st2 a1 (key_of n)).

(** The address index after the first step of [stab_set]: the entry of
    the name's old address is gone. *)
Definition without_old_entry (st : stab) (name : list byte)
  : list (addr_key * unit) :=
  match lookup st (key_of name) with
  | Some old_addr =>
      items_delete addr_table_def (items (addr st))
                   {| ak_addr := old_addr; ak_name := key_of name |}
  | None => items (addr st)
  end.

(** [stab_del] reports a failing delete on an index.  The two deletes
    are the ones [stab_del] issues once it has found [value]. *)
Definition del_reports_failure (st : stab) (name : list byte) : Prop :=
  forall value,
    btree_get sym_table_def (sym st) (sym_key_init name) = Some value ->
    snd (btree_delete sym_table_def (sym st) (sym_key_init name)) <> 0
    \/ snd (btree_delete addr_table_def (addr st) (addr_key_init value name)) <> 0 ->
    snd (stab_del st name) <> 0.

(** The cross-index invariant holds after a [stab_set] on [st] that
    completes successfully. *)
Definition set_restores_invariant (st : stab) (name : list byte) (value : Z)
  : Prop :=
  forall alloc_addr alloc_sym st',
    stab_set alloc_addr alloc_sym st name value = (st', 0) ->
    cross_index_consistent st'.

(** After a successful [stab_del] of a name, [stab_get] does not find the
    name and no [stab_nearest] query resolves to it. *)
Definition del_clears_name (st : stab) (name : list byte) : Prop :=
  forall st',
    stab_del st name = (st', 0) ->
    (forall v, stab_get st' name v = (-1, v))
    /\ forall q e, nearest_entry st' q = Some e -> ak_name e <> key_of name.

(** The tables that calls of the public functions produce, whatever the
    calls return. *)
Inductive stab_reachable : stab -> Prop :=
| reach_new : stab_reachable stab_new
| reach_clear (st : stab) : stab_reachable (stab_clear st)
| reach_set (st : stab) (alloc_addr alloc_sym : bool)
            (name : list byte) (value : Z) :
    stab_reachable st ->
    stab_reachable (fst (stab_set alloc_addr alloc_sym st name value))
| reach_del (st : stab) (name : list byte) :
    stab_reachable st ->
    stab_reachable (fst (stab_del st name))
| reach_nearest (st : stab) (address : Z) (ret_name : list byte)
                (max_len ret_offset : Z) :
    stab_reachable st ->
    stab_reachable
      (fst (fst (fst (stab_nearest st address ret_name max_len ret_offset))))
| reach_enum (U : Type) (st st' : stab) (fuel : nat)
             (cb : U -> list byte -> Z -> U * Z) (u u' : U) (r : Z) :
    stab_reachable st ->
    stab_enum fuel st cb u = Some (st', u', r) ->
    stab_reachable st'.

End Stab.

(** ** Sample data *)

(** The names of the spec's test cases, a name of 70 bytes, and tables
    with 32-bit addresses built by successful [stab_set] calls. *)
Definition name_foo : list byte := [x66; x6f; x6f].
Definition name_a : list byte := [x61].
Definition name_b : list byte := [x62].
Definition name_c : list byte := [x63].
Definition name_x : list byte := [x78].
Definition name_long : list byte := repeat x41 70.

Definition table_of (l : list (list byte * Z)) : stab :=
  fold_left (fun st p => fst (stab_set 32 true true st (fst p) (snd p)))
            l stab_new.

(** A visitor that records what it is given. *)
Definition collect (seen : list (list byte * Z)) (name : list byte) (a : Z)
  : list (list byte * Z) * Z :=
  (seen ++ [(name, a)], 0).

(** The table left by [stab_set ("x", 0x10)] followed by a
    [stab_set ("x", 0x20)] whose insert into the name index fails: the
    name index has "x" at 0x10, the address index has (0x20, "x"). *)
Definition table_after_failed_overwrite : stab :=
  fst (stab_set 32 true false (table_of [(name_x, 0x10)]) name_x 0x20).

(** Two names of 70 bytes that share their first 63 bytes. *)
Definition name_long_1 : list byte := repeat x41 63 ++ repeat x42 7.
Definition name_long_2 : list byte := repeat x41 63 ++ repeat x43 7.

(** ** Option values ([stdcmd.c]) *)

(** [opdb_type_t] comes from [opdb.h], which is not among the sources;
    these are the values [stdcmd.c] names. *)
Inductive opdb_type_t :=
| OPDB_TYPE_BOOLEAN
| OPDB_TYPE_NUMERIC
| OPDB_TYPE_STRING.

(** [union opdb_value] ([opdb.h]), by the member that was written last. *)
Inductive opdb_value :=
| OV_numeric (numeric : Z)
| OV_string (string : list byte).

(** [word[i]] for a string argument: the bytes of the string, then its
    terminator; [None] is a read behind the terminator, outside what the
    caller has to provide. *)
Definition char_at (word : list byte) (i : nat) : option byte :=
  if (i <? strlen word)%nat then nth_error word i
  else if (i =? strlen word)%nat then Some x00
  else None.

(** [isdigit] of the C locale. *)
Definition isdigit (c : byte) : bool :=
  (uchar x30 <=? uchar c) && (uchar c <=? uchar x39).

Section Options.
(** [sizeof (value->string)], from [opdb.h]. *)
Variable string_size : nat.
(** [expr_eval (stab_default, word, &value->numeric)], from [expr.h]: its
    return value and, when it stores one, the number it stores. *)
Variable expr_eval : list byte -> Z * option Z.

(** The result is [None] when a byte behind the terminator of [word] is
    read; otherwise the return value and [*value] after the call.  The
    operands of [||] and [&&] are evaluated from the left, as far as
    needed. *)
Definition parse_option (type : opdb_type_t) (value : opdb_value)
           (word : list byte) : option (Z * opdb_value) :=
  match type with
  | OPDB_TYPE_BOOLEAN =>
      match char_at word 0 with
      | None => None
      | Some c0 =>
          if isdigit c0 && (uchar c0 >? uchar x30)
          then Some (0, OV_numeric 1)
          else if uchar c0 =? uchar x74 then Some (0, OV_numeric 1)
          else if uchar c0 =? uchar x79 then Some (0, OV_numeric 1)
          else if uchar c0 =? uchar x6f then
            match char_at word 1 with
            | None => None
            | Some c1 =>
                if uchar c1 =? uchar x6e then Some (0, OV_numeric 1)
                else Some (0, OV_numeric 0)
            end
          else Some (0, OV_numeric 0)
      end
  | OPDB_TYPE_NUMERIC =>
      match expr_eval word with
      | (r, Some n) => Some (r, OV_numeric n)
      | (r, None) => Some (r, value)
      end
  | OPDB_TYPE_STRING =>
      (* all [string_size] bytes of the member are written, whatever they
         held *)
      let string := strncpy (repeat x00 string_size) (c_str word) string_size in
      let string := store string (Z.of_nat string_size - 1) x00 in
      Some (0, OV_string string)
  end.

End Options.

(** * Facts about the model *)

(** ** Bytes and [strcmp] *)

Lemma uchar_range (b : byte) : 0 <= uchar b <= 255.
Proof.
  unfold uchar. pose proof (Byte.to_N_bounded b). lia.
Qed.

Lemma uchar_inj (a b : byte) : uchar a = uchar b -> a = b.
Proof.
  unfold uchar. intros H.
  assert (E : Byte.to_N a = Byte.to_N b) by lia.
  pose proof (Byte.of_to_N a) as Ha. pose proof (Byte.of_to_N b) as Hb.
  rewrite E in Ha. congruence.
Qed.

Lemma strcmp_eq (l r : list byte) : strcmp l r = 0 <-> l = r.
Proof.
  revert r. induction l as [|a l IH]; intros [|b r]; simpl;
    try (split; [lia | discriminate]); [tauto|].
  destruct (Z.eqb_spec (uchar a) (uchar b)) as [E|E].
  - apply uchar_inj in E. subst b. rewrite IH. split; congruence.
  - split; [lia | intros H; inversion H; subst; contradiction].
Qed.

Lemma strcmp_flip (l r : list byte) : strcmp l r < 0 <-> 0 < strcmp r l.
Proof.
  revert r. induction l as [|a l IH]; intros [|b r]; simpl; try lia.
  rewrite (Z.eqb_sym (uchar b) (uchar a)).
  destruct (Z.eqb_spec (uchar a) (uchar b)); [apply IH | lia].
Qed.

Lemma strcmp_trans (l m r : list byte) :
  strcmp l m < 0 -> strcmp m r < 0 -> strcmp l r < 0.
Proof.
  revert m r. induction l as [|a l IH]; intros [|b m] [|c r]; simpl; try lia.
  destruct (Z.eqb_spec (uchar a) (uchar b)) as [E1|E1];
    destruct (Z.eqb_spec (uchar b) (uchar c)) as [E2|E2];
    destruct (Z.eqb_spec (uchar a) (uchar c)) as [E3|E3]; try lia.
  apply IH.
Qed.

(** Every name that fits the array sorts below the probe of
    [stab_nearest]. *)
Lemma strcmp_below_ff (n : list byte) (size : nat) :
  (length n < size)%nat -> strcmp n (repeat xff size) < 0.
Proof.
  revert size. induction n as [|a n IH]; intros [|size] H; simpl in *; try lia.
  destruct (Z.eqb_spec (uchar a) (uchar xff)) as [E|E].
  - apply IH. lia.
  - pose proof (uchar_range a). change (uchar xff) with 255 in *. lia.
Qed.

#[export] Instance sym_key_order : btree_order sym_key_compare.
Proof.
  split; unfold sym_key_compare.
  - intros [x] [y]. simpl. rewrite strcmp_eq. split; congruence.
  - intros x y. apply strcmp_flip.
  - intros x y z. apply strcmp_trans.
Qed.

#[export] Instance addr_key_order : btree_order addr_key_compare.
Proof.
  split; unfold addr_key_compare.
  - intros [a x] [b y]. simpl.
    destruct (Z.ltb_spec a b); [split; [lia | intros E; inversion E; lia]|].
    destruct (Z.gtb_spec a b); [split; [lia | intros E; inversion E; lia]|].
    rewrite strcmp_eq. split; [intros ->; f_equal; lia | congruence].
  - intros [a x] [b y]. simpl.
    destruct (Z.ltb_spec a b); destruct (Z.gtb_spec a b);
      destruct (Z.ltb_spec b a); destruct (Z.gtb_spec b a);
      try lia; apply strcmp_flip.
  - intros [a x] [b y] [c z]. simpl.
    destruct (Z.ltb_spec a b); destruct (Z.gtb_spec a b);
      destruct (Z.ltb_spec b c); destruct (Z.gtb_spec b c);
      destruct (Z.ltb_spec a c); destruct (Z.gtb_spec a c);
      try lia; apply strcmp_trans.
Qed.

(** ** The ordered index *)

Section BTreeFacts.
Context {K V : Type} (def : btree_def K) {ord : btree_order (compare def)}.

Local Abbreviation cmp := (compare def).
Local Abbreviation sorted l := (sortedb def (map fst l) = true).

Lemma cmp_refl (x : K) : cmp x x = 0.
Proof. apply cmp_eq. reflexivity. Qed.

Lemma cmp_eqb_iff (x y : K) : (cmp x y =? 0) = true <-> x = y.
Proof. rewrite Z.eqb_eq. apply cmp_eq. Qed.

Lemma cmp_eqb_refl (x : K) : (cmp x x =? 0) = true.
Proof. apply cmp_eqb_iff. reflexivity. Qed.

Lemma cmp_eqb_neq (x y : K) : x <> y -> (cmp x y =? 0) = false.
Proof.
  intros H. destruct (cmp x y =? 0) eqn:E; [|reflexivity].
  apply cmp_eqb_iff in E. contradiction.
Qed.

Lemma cmp_lt_neq (x y : K) : cmp x y < 0 -> x <> y.
Proof. intros H E. apply cmp_eq in E. lia. Qed.

Lemma cmp_le_trans (x y z : K) : cmp x y <= 0 -> cmp y z <= 0 -> cmp x z <= 0.
Proof.
  intros H1 H2.
  destruct (Z.eq_dec (cmp x y) 0) as [E|E]; [apply cmp_eq in E; subst; easy|].
  destruct (Z.eq_dec (cmp y z) 0) as [F|F]; [apply cmp_eq in F; subst; easy|].
  assert (cmp x z < 0) by (apply cmp_trans with y; lia). lia.
Qed.

Lemma sorted_cons (k : K) (v : V) (l : list (K * V)) :
  sorted ((k, v) :: l) <->
  (forall k' v', In (k', v') l -> cmp k k' < 0) /\ sorted l.
Proof.
  simpl. rewrite andb_true_iff, forallb_forall. split.
  - intros [H1 H2]. split; [|exact H2]. intros k' v' Hin.
    apply Z.ltb_lt, H1. apply (in_map fst) in Hin. exact Hin.
  - intros [H1 H2]. split; [|exact H2]. intros k' Hin.
    apply in_map_iff in Hin. destruct Hin as [[k'' v'] [<- Hin]].
    apply Z.ltb_lt. eapply H1. exact Hin.
Qed.

Lemma items_get_In (l : list (K * V)) (k : K) (v : V) :
  items_get def l k = Some v -> In (k, v) l.
Proof.
  induction l as [|[k0 v0] l IH]; simpl; [discriminate|].
  destruct (cmp k k0 =? 0) eqn:E.
  - apply cmp_eqb_iff in E. subst k0. intros [= ->]. now left.
  - intros H. right. apply IH, H.
Qed.

Lemma items_get_above (l : list (K * V)) (k : K) :
  (forall k' v', In (k', v') l -> cmp k k' < 0) -> items_get def l k = None.
Proof.
  induction l as [|[k0 v0] l IH]; simpl; intros H; [reflexivity|].
  rewrite cmp_eqb_neq by (apply cmp_lt_neq, (H k0 v0); now left).
  apply IH. intros k' v' Hin. apply (H k' v'). now right.
Qed.

Lemma In_items_get (l : list (K * V)) (k : K) (v : V) :
  sorted l -> In (k, v) l -> items_get def l k = Some v.
Proof.
  induction l as [|[k0 v0] l IH]; simpl In; [easy|].
  intros Hs [E|Hin]; apply sorted_cons in Hs; destruct Hs as [Hlt Hs].
  - inversion E; subst. simpl. now rewrite cmp_eqb_refl.
  - simpl. rewrite cmp_eqb_neq; [now apply IH|].
    intros ->. apply Hlt in Hin. rewrite cmp_refl in Hin. lia.
Qed.

Lemma items_get_put (l : list (K * V)) (k k' : K) (v : V) :
  items_get def (items_put def l k v) k' =
  if cmp k' k =? 0 then Some v else items_get def l k'.
Proof.
  induction l as [|[k0 v0] l IH]; simpl; [reflexivity|].
  destruct (cmp k k0 <? 0) eqn:Elt; [reflexivity|].
  destruct (cmp k k0 =? 0) eqn:Eeq; simpl.
  - apply cmp_eqb_iff in Eeq. subst k0.
    destruct (cmp k' k =? 0); reflexivity.
  - rewrite IH. destruct (cmp k' k0 =? 0) eqn:E0; [|reflexivity].
    destruct (cmp k' k =? 0) eqn:E1; [|reflexivity].
    apply cmp_eqb_iff in E0, E1. subst. rewrite cmp_eqb_refl in Eeq.
    discriminate.
Qed.

Lemma items_get_delete (l : list (K * V)) (k k' : K) :
  sorted l ->
  items_get def (items_delete def l k) k' =
  if cmp k' k =? 0 then None else items_get def l k'.
Proof.
  induction l as [|[k0 v0] l IH]; simpl items_delete; intros Hs.
  - simpl. now destruct (cmp k' k =? 0).
  - apply sorted_cons in Hs. destruct Hs as [Hlt Hs].
    destruct (cmp k k0 =? 0) eqn:Eeq.
    + apply cmp_eqb_iff in Eeq. subst k0. simpl.
      destruct (cmp k' k =? 0) eqn:E1; [|reflexivity].
      apply cmp_eqb_iff in E1. subst k'. now apply items_get_above.
    + simpl. rewrite IH by exact Hs.
      destruct (cmp k' k0 =? 0) eqn:E0; [|reflexivity].
      apply cmp_eqb_iff in E0. subst k'.
      rewrite Z.eqb_neq in Eeq.
      rewrite cmp_eqb_neq; [reflexivity|].
      intros ->. now rewrite cmp_refl in Eeq.
Qed.

Lemma items_put_keys (l : list (K * V)) (k k' : K) (v v' : V) :
  In (k', v') (items_put def l k v) -> (k', v') = (k, v) \/ In (k', v') l.
Proof.
  induction l as [|[k0 v0] l IH]; simpl.
  - intros [E|[]]. left. congruence.
  - destruct (cmp k k0 <? 0); [|destruct (cmp k k0 =? 0)]; simpl.
    + intros [E|H]; [left; congruence | now right].
    + intros [E|H]; [left; congruence | right; now right].
    + intros [E|H]; [right; now left|].
      destruct (IH H); [now left | right; now right].
Qed.

Lemma items_delete_keys (l : list (K * V)) (k k' : K) (v' : V) :
  In (k', v') (items_delete def l k) -> In (k', v') l.
Proof.
  induction l as [|[k0 v0] l IH]; simpl; [easy|].
  destruct (cmp k k0 =? 0); simpl; [now right|].
  intros [E|H]; [now left | right; now apply IH].
Qed.

Lemma items_put_sorted (l : list (K * V)) (k : K) (v : V) :
  sorted l -> sorted (items_put def l k v).
Proof.
  induction l as [|[k0 v0] l IH]; intros Hs; [reflexivity|].
  pose proof Hs as Hs0.
  apply sorted_cons in Hs. destruct Hs as [Hlt Hs]. simpl items_put.
  destruct (Z.ltb_spec (cmp k k0) 0) as [L|L].
  - apply sorted_cons. split; [|exact Hs0].
    intros k' v' [E|Hin]; [congruence|].
    apply cmp_trans with k0; [exact L | eapply Hlt, Hin].
  - destruct (cmp k k0 =? 0) eqn:E.
    + apply cmp_eqb_iff in E. subst k0. apply sorted_cons. now split.
    + apply sorted_cons. split; [|now apply IH].
      intros k' v' Hin. apply items_put_keys in Hin.
      destruct Hin as [[= -> ->]|Hin]; [|eapply Hlt, Hin].
      apply Z.eqb_neq in E. apply cmp_flip. lia.
Qed.

Lemma items_delete_sorted (l : list (K * V)) (k : K) :
  sorted l -> sorted (items_delete def l k).
Proof.
  induction l as [|[k0 v0] l IH]; intros Hs; [reflexivity|].
  apply sorted_cons in Hs. destruct Hs as [Hlt Hs]. simpl items_delete.
  destruct (cmp k k0 =? 0); [exact Hs|].
  apply sorted_cons. split; [|now apply IH].
  intros k' v' Hin. eapply Hlt, items_delete_keys, Hin.
Qed.

Lemma items_put_below (l : list (K * V)) (k : K) (v : V) :
  (forall k' v', In (k', v') l -> cmp k k' < 0) ->
  items_put def l k v = (k, v) :: l.
Proof.
  destruct l as [|[k0 v0] l]; intros H; [reflexivity|]. simpl.
  assert (L : cmp k k0 < 0) by (apply (H k0 v0); now left).
  apply Z.ltb_lt in L. now rewrite L.
Qed.

(** Storing again what is stored changes nothing. *)
Lemma items_put_same (l : list (K * V)) (k : K) (v : V) :
  sorted l -> items_get def l k = Some v -> items_put def l k v = l.
Proof.
  induction l as [|[k0 v0] l IH]; simpl items_get; [discriminate|].
  intros Hs. apply sorted_cons in Hs. destruct Hs as [Hlt Hs]. simpl items_put.
  destruct (cmp k k0 =? 0) eqn:E.
  - intros [= ->]. apply cmp_eqb_iff in E. subst k0.
    rewrite cmp_refl. reflexivity.
  - intros Hg. pose proof (items_get_In _ _ _ Hg) as Hin.
    apply Hlt, cmp_flip in Hin.
    destruct (Z.ltb_spec (cmp k k0) 0); [lia|].
    f_equal. now apply IH.
Qed.

(** Removing a record and inserting it again changes nothing. *)
Lemma items_put_delete (l : list (K * V)) (k : K) (v : V) :
  sorted l -> items_get def l k = Some v ->
  items_put def (items_delete def l k) k v = l.
Proof.
  induction l as [|[k0 v0] l IH]; simpl items_get; [discriminate|].
  intros Hs. apply sorted_cons in Hs. destruct Hs as [Hlt Hs].
  simpl items_delete.
  destruct (cmp k k0 =? 0) eqn:E.
  - intros [= ->]. apply cmp_eqb_iff in E. subst k0.
    now apply items_put_below.
  - intros Hg. pose proof (items_get_In _ _ _ Hg) as Hin.
    apply Hlt, cmp_flip in Hin. simpl items_put. rewrite E.
    destruct (Z.ltb_spec (cmp k k0) 0); [lia|].
    f_equal. now apply IH.
Qed.

(** [items_le]: nothing is found exactly when every key is above the
    probe. *)
Lemma items_le_None (l : list (K * V)) (p : K) :
  sorted l ->
  (items_le def l p = None <-> forall k v, In (k, v) l -> 0 < cmp k p).
Proof.
  destruct l as [|[k0 v0] l]; intros Hs; simpl.
  - split; [intros _ k v [] | reflexivity].
  - apply sorted_cons in Hs. destruct Hs as [Hlt Hs].
    destruct (Z.leb_spec (cmp k0 p) 0) as [L|L].
    + split.
      * destruct (items_le def l p); discriminate.
      * intros H. specialize (H k0 v0 (or_introl eq_refl)). lia.
    + split; [|reflexivity]. intros _ k v [E|Hin]; [congruence|].
      apply cmp_flip. apply cmp_trans with k0; [now apply cmp_flip|].
      apply cmp_flip. apply cmp_flip. eapply Hlt, Hin.
Qed.

(** [items_le]: what is found is a record, not above the probe, and no
    record between it and the probe exists. *)
Lemma items_le_Some (l : list (K * V)) (p : K) (i : nat) :
  sorted l -> items_le def l p = Some i ->
  exists k v, nth_error l i = Some (k, v) /\ cmp k p <= 0 /\
              forall k' v', In (k', v') l -> cmp k' p <= 0 -> cmp k' k <= 0.
Proof.
  revert i. induction l as [|[k0 v0] l IH]; intros i Hs; simpl; [discriminate|].
  apply sorted_cons in Hs. destruct Hs as [Hlt Hs].
  destruct (Z.leb_spec (cmp k0 p) 0) as [L|L]; [|discriminate].
  destruct (items_le def l p) as [j|] eqn:E.
  - intros [= <-]. destruct (IH j Hs eq_refl) as (k & v & Hn & Hle & Hmax).
    exists k, v. simpl. repeat split; try assumption.
    intros k' v' [Heq|Hin] Hp; [|now apply (Hmax k' v')].
    inversion Heq; subst k' v'. apply nth_error_In in Hn.
    apply Hlt in Hn. lia.
  - intros [= <-]. exists k0, v0. simpl. repeat split; try assumption.
    intros k' v' [Heq|Hin] Hp.
    + inversion Heq; subst. rewrite cmp_refl. lia.
    + pose proof (proj1 (items_le_None l p Hs) E k' v' Hin). lia.
Qed.

Lemma items_delete_absent (l : list (K * V)) (k : K) :
  items_get def l k = None -> items_delete def l k = l.
Proof.
  induction l as [|[k0 v0] l IH]; simpl; [reflexivity|].
  destruct (cmp k k0 =? 0); [discriminate|].
  intros H. f_equal. now apply IH.
Qed.

Lemma btree_delete_items (bt : btree K V) (k : K) :
  items (fst (btree_delete def bt k)) = items_delete def (items bt) k.
Proof.
  unfold btree_delete. destruct (items_get def (items bt) k) eqn:E; simpl.
  - reflexivity.
  - symmetry. now apply items_delete_absent.
Qed.

(** A key of a sorted index occurs once. *)
Lemma sorted_once (l : list K) (k : K) (same : K -> bool) :
  (forall x, same x = true <-> x = k) ->
  sortedb def l = true -> In k l -> length (filter same l) = 1%nat.
Proof.
  intros Hsame. induction l as [|x l IH]; simpl; [easy|].
  rewrite andb_true_iff, forallb_forall. intros [Hlt Hs] Hin.
  destruct (same x) eqn:E.
  - apply Hsame in E. subst x. simpl. f_equal.
    apply length_zero_iff_nil.
    destruct (filter same l) as [|y f] eqn:F; [reflexivity|].
    assert (Hy : In y (filter same l)) by (rewrite F; now left).
    apply filter_In in Hy. destruct Hy as [Hy1 Hy2].
    apply Hsame in Hy2. subst y. apply Hlt, Z.ltb_lt in Hy1.
    rewrite cmp_refl in Hy1. lia.
  - destruct Hin as [->|Hin]; [|now apply IH].
    assert (same k = true) by now apply Hsame. congruence.
Qed.

Lemma cmp_eqb_cases (x y : K) :
  (x = y /\ (cmp x y =? 0) = true) \/ (x <> y /\ (cmp x y =? 0) = false).
Proof.
  destruct (cmp x y =? 0) eqn:E.
  - left. split; [now apply cmp_eqb_iff | reflexivity].
  - right. split; [|reflexivity]. intros ->. now rewrite cmp_eqb_refl in E.
Qed.

Lemma btree_select_items (bt : btree K V) (key : option K)
      (mode : btree_selmode_t) :
  items (fst (btree_select def bt key mode)) = items bt.
Proof.
  unfold btree_select.
  destruct mode;
    repeat match goal with
           | |- context [match ?x with _ => _ end] => destruct x
           end; reflexivity.
Qed.

End BTreeFacts.

(** ** Names and addresses *)

Lemma strlen_le_length (t : list byte) : (strlen t <= length t)%nat.
Proof.
  induction t as [|b t IH]; simpl; [lia|]. destruct (is_nul b); lia.
Qed.

Lemma firstn_strlen_nonul (t : list byte) (n : nat) :
  (n <= strlen t)%nat ->
  forallb (fun b => negb (is_nul b)) (firstn n t) = true.
Proof.
  revert n. induction t as [|b t IH]; intros [|n]; simpl; try reflexivity.
  destruct (is_nul b) eqn:E; simpl; intros H; [lia|]. apply IH. lia.
Qed.

Lemma strlen_nonul (t : list byte) :
  forallb (fun b => negb (is_nul b)) t = true -> strlen t = length t.
Proof.
  induction t as [|b t IH]; simpl; [reflexivity|].
  destruct (is_nul b); simpl; [discriminate|]. intros H. f_equal. now apply IH.
Qed.

Lemma strlen_app_nul (p r : list byte) :
  forallb (fun b => negb (is_nul b)) p = true ->
  strlen (p ++ x00 :: r) = length p.
Proof.
  induction p as [|b p IH]; simpl; [reflexivity|].
  destruct (is_nul b); simpl; [discriminate|]. intros H. f_equal. now apply IH.
Qed.

Lemma c_str_app_nul (p r : list byte) :
  forallb (fun b => negb (is_nul b)) p = true -> c_str (p ++ x00 :: r) = p.
Proof.
  intros H. unfold c_str. rewrite strlen_app_nul by exact H.
  rewrite firstn_app, Nat.sub_diag, firstn_all. simpl. apply app_nil_r.
Qed.

Lemma sym_key_init_eq (text : list byte) :
  sym_key_init text = {| sym_name := key_of text |}.
Proof. reflexivity. Qed.

Lemma addr_key_init_eq (a : Z) (text : list byte) :
  addr_key_init a text = {| ak_addr := a; ak_name := key_of text |}.
Proof. reflexivity. Qed.

Lemma key_of_unfold (text : list byte) :
  key_of text = firstn (key_len text) text.
Proof. reflexivity. Qed.

(** What the conversion to [int] and the comparison leave of the
    length. *)
Lemma key_len_spec (text : list byte) :
  (key_len text <= 63)%nat /\ (key_len text <= strlen text)%nat
  /\ ((strlen text < NAME_SIZE)%nat -> key_len text = strlen text)
  /\ ((NAME_SIZE <= strlen text)%nat -> Z.of_nat (strlen text) <= INT_MAX ->
      key_len text = 63%nat).
Proof.
  unfold key_len, ge_sizeof, to_int, INT_MAX, NAME_SIZE.
  set (z := Z.of_nat (strlen text)).
  assert (Hz : 0 <= z) by (subst z; lia).
  pose proof (Z.div_mod (z + 2147483648) 4294967296 ltac:(lia)) as D.
  pose proof (Z.mod_pos_bound (z + 2147483648) 4294967296 ltac:(lia)) as B.
  assert (Q : 0 <= (z + 2147483648) / 4294967296)
    by (apply Z.div_pos; lia).
  set (r := (z + 2147483648) mod 4294967296) in *.
  set (q := (z + 2147483648) / 4294967296) in *.
  change (Z.of_nat 64) with 64.
  destruct (Z.ltb_spec (r - 2147483648) 0);
    destruct (Z.leb_spec 64 (r - 2147483648)); simpl orb; cbv iota;
      repeat split; intros; try lia.
Qed.

(** Beyond [INT_MAX] the length wraps: of a name of 2^32 + k bytes the
    [_init] functions keep k bytes. *)
Lemma key_len_wraps (text : list byte) (k : Z) :
  0 <= k < Z.of_nat NAME_SIZE ->
  Z.of_nat (strlen text) = 4294967296 + k ->
  key_len text = Z.to_nat k.
Proof.
  unfold key_len, ge_sizeof, to_int, NAME_SIZE. intros Hk ->.
  change (Z.of_nat 64) with 64 in *.
  replace (4294967296 + k + 2147483648)
    with (k + 2147483648 + 1 * 4294967296) by lia.
  rewrite Z.mod_add by lia. rewrite Z.mod_small by lia.
  replace (k + 2147483648 - 2147483648) with k by lia.
  destruct (Z.ltb_spec k 0); [lia|]. destruct (Z.leb_spec 64 k); [lia|].
  reflexivity.
Qed.


Lemma key_of_short (text : list byte) :
  (strlen text < NAME_SIZE)%nat -> key_of text = c_str text.
Proof.
  intros H. rewrite key_of_unfold.
  destruct (key_len_spec text) as (_ & _ & S & _). now rewrite S.
Qed.

Lemma key_of_length (text : list byte) : (length (key_of text) < NAME_SIZE)%nat.
Proof.
  rewrite key_of_unfold. rewrite length_firstn.
  destruct (key_len_spec text) as (L & _). unfold NAME_SIZE. lia.
Qed.

Section NameFacts.
Variable address_bits : N.

Lemma key_of_ok (text : list byte) : name_ok (key_of text) = true.
Proof.
  unfold name_ok. apply andb_true_iff. split.
  - apply Nat.ltb_lt, key_of_length.
  - rewrite key_of_unfold. apply firstn_strlen_nonul.
    now destruct (key_len_spec text) as (_ & L & _).
Qed.

Lemma key_of_fixed (n : list byte) : name_ok n = true -> key_of n = n.
Proof.
  unfold name_ok. rewrite andb_true_iff, Nat.ltb_lt. intros [Hlen Hnul].
  rewrite key_of_short; unfold c_str; rewrite (strlen_nonul n Hnul).
  - apply firstn_all.
  - exact Hlen.
Qed.

Lemma key_of_idem (text : list byte) : key_of (key_of text) = key_of text.
Proof. apply key_of_fixed, key_of_ok. Qed.

Lemma two_power_pos : 0 < 2 ^ Z.of_N address_bits.
Proof. apply Z.pow_pos_nonneg; lia. Qed.

Lemma to_address_ok (v : Z) :
  is_address address_bits (to_address address_bits v) = true.
Proof.
  unfold is_address, to_address.
  pose proof (Z.mod_pos_bound v _ two_power_pos).
  apply andb_true_iff. split; [apply Z.leb_le | apply Z.ltb_lt]; lia.
Qed.

Lemma to_address_id (a : Z) :
  is_address address_bits a = true -> to_address address_bits a = a.
Proof.
  unfold is_address, to_address. rewrite andb_true_iff, Z.leb_le, Z.ltb_lt.
  intros H. apply Z.mod_small. lia.
Qed.

End NameFacts.

(** ** The two indexes under the public functions *)

#[export] Instance sym_table_order : btree_order (compare sym_table_def) :=
  sym_key_order.

#[export] Instance addr_table_order : btree_order (compare addr_table_def) :=
  addr_key_order.

Section StabFacts.
Variable address_bits : N.

Local Abbreviation to_addr := (to_address address_bits).
Local Abbreviation set := (stab_set address_bits).
Local Abbreviation wf := (stab_wf address_bits).
Local Abbreviation sym_get := (items_get sym_table_def).
Local Abbreviation addr_get := (items_get addr_table_def).
Local Abbreviation sym_sorted st :=
  (sortedb sym_table_def (map fst (items (sym st))) = true).
Local Abbreviation addr_sorted st :=
  (sortedb addr_table_def (map fst (items (addr st))) = true).

Lemma stab_set_spec (oa os : bool) (st : stab) (name : list byte) (value : Z) :
  let k := key_of name in
  let a := to_addr value in
  let st' := fst (set oa os st name value) in
  items (addr st') =
    (if oa
     then items_put addr_table_def (without_old_entry st name)
                    {| ak_addr := a; ak_name := k |} tt
     else without_old_entry st name)
  /\ items (sym st') =
       (if oa && os
        then items_put sym_table_def (items (sym st)) {| sym_name := k |} a
        else items (sym st))
  /\ snd (set oa os st name value) = (if oa && os then 0 else -1)
  /\ (oa && os = true -> cursor (addr st') = None /\ cursor (sym st') = None).
Proof.
  unfold stab_set, without_old_entry, lookup.
  rewrite sym_key_init_eq. simpl sym_name.
  destruct (btree_get sym_table_def (sym st) {| sym_name := key_of name |});
    rewrite !addr_key_init_eq, ?key_of_idem;
    destruct oa, os; simpl; rewrite ?btree_delete_items;
    repeat split; try reflexivity; try discriminate.
Qed.

Lemma stab_set_success (oa os : bool) (st st' : stab) (name : list byte)
      (value : Z) :
  set oa os st name value = (st', 0) -> oa = true /\ os = true.
Proof.
  intros H. pose proof (stab_set_spec oa os st name value) as (_ & _ & R & _).
  rewrite H in R. simpl in R. destruct oa, os; simpl in R; (now split) || lia.
Qed.

Lemma stab_del_spec (st : stab) (name : list byte) :
  match lookup st (key_of name) with
  | None => stab_del st name = (st, -1)
  | Some a =>
      snd (stab_del st name) = 0
      /\ items (sym (fst (stab_del st name))) =
           items_delete sym_table_def (items (sym st))
                        {| sym_name := key_of name |}
      /\ items (addr (fst (stab_del st name))) =
           items_delete addr_table_def (items (addr st))
                        {| ak_addr := a; ak_name := key_of name |}
  end.
Proof.
  unfold stab_del, lookup. rewrite sym_key_init_eq.
  destruct (btree_get sym_table_def (sym st) {| sym_name := key_of name |});
    [|reflexivity].
  rewrite addr_key_init_eq. simpl. rewrite !btree_delete_items. now repeat split.
Qed.

Lemma stab_wf_iff (st : stab) :
  wf st = true <->
  sym_sorted st /\ addr_sorted st
  /\ (forall k a, In (k, a) (items (sym st)) ->
                  name_ok (sym_name k) = true
                  /\ is_address address_bits a = true)
  /\ (forall k u, In (k, u) (items (addr st)) ->
                  name_ok (ak_name k) = true
                  /\ is_address address_bits (ak_addr k) = true).
Proof.
  unfold stab_wf, btree_sorted, keys.
  rewrite !andb_true_iff, !forallb_forall. split.
  - intros [[[H1 H2] H3] H4]. repeat split; try assumption.
    + now destruct (proj1 (andb_true_iff _ _) (H3 _ H)).
    + now destruct (proj1 (andb_true_iff _ _) (H3 _ H)).
    + now destruct (proj1 (andb_true_iff _ _) (H4 _ H)).
    + now destruct (proj1 (andb_true_iff _ _) (H4 _ H)).
  - intros (H1 & H2 & H3 & H4). repeat split; try assumption.
    + intros [k a] Hin. apply andb_true_iff. now apply H3.
    + intros [k u] Hin. apply andb_true_iff. now apply (H4 k u).
Qed.

Lemma without_old_sorted (st : stab) (name : list byte) :
  addr_sorted st ->
  sortedb addr_table_def (map fst (without_old_entry st name)) = true.
Proof.
  intros H. unfold without_old_entry.
  destruct (lookup st (key_of name)); [|exact H].
  now apply (items_delete_sorted addr_table_def).
Qed.

Lemma without_old_In (st : stab) (name : list byte) (k : addr_key) (u : unit) :
  In (k, u) (without_old_entry st name) -> In (k, u) (items (addr st)).
Proof.
  unfold without_old_entry.
  destruct (lookup st (key_of name)); [|easy]. apply items_delete_keys.
Qed.

Lemma stab_set_wf (oa os : bool) (st : stab) (name : list byte) (value : Z) :
  wf st = true -> wf (fst (set oa os st name value)) = true.
Proof.
  rewrite !stab_wf_iff. intros (H1 & H2 & H3 & H4).
  destruct (stab_set_spec oa os st name value) as (Ea & Es & _ & _).
  rewrite Ea, Es. split; [|split; [|split]].
  - destruct (oa && os); [now apply (items_put_sorted sym_table_def) | exact H1].
  - destruct oa; [apply (items_put_sorted addr_table_def)|];
      now apply without_old_sorted.
  - intros k a Hin. destruct (oa && os); [|exact (H3 k a Hin)].
    apply items_put_keys in Hin.
    destruct Hin as [[= -> ->]|Hin]; [|exact (H3 k a Hin)].
    split; [apply key_of_ok | apply to_address_ok].
  - intros k u Hin. destruct oa.
    + apply items_put_keys in Hin. destruct Hin as [[= -> ->]|Hin].
      * split; [apply key_of_ok | apply to_address_ok].
      * apply (H4 k u), without_old_In with name, Hin.
    + apply (H4 k u), without_old_In with name, Hin.
Qed.

Lemma stab_del_wf (st : stab) (name : list byte) :
  wf st = true -> wf (fst (stab_del st name)) = true.
Proof.
  intros Hwf. pose proof (stab_del_spec st name) as S.
  destruct (lookup st (key_of name)) as [a|]; [|now rewrite S].
  destruct S as (_ & Es & Ea).
  revert Hwf. rewrite !stab_wf_iff. intros (H1 & H2 & H3 & H4).
  rewrite Es, Ea. split; [|split; [|split]].
  - now apply (items_delete_sorted sym_table_def).
  - now apply (items_delete_sorted addr_table_def).
  - intros k x Hin. apply (H3 k x). eapply items_delete_keys, Hin.
  - intros k u Hin. apply (H4 k u). eapply items_delete_keys, Hin.
Qed.

Lemma same_records_wf (st st' : stab) :
  same_records st st' -> wf st' = wf st.
Proof.
  intros [Es Ea]. unfold stab_wf, btree_sorted, keys. now rewrite Es, Ea.
Qed.

Lemma same_records_consistent (st st' : stab) :
  same_records st st' -> stab_consistent st' = stab_consistent st.
Proof.
  intros [Es Ea]. unfold stab_consistent, has_key, btree_get.
  now rewrite Es, Ea.
Qed.

(** The two indexes hold the same symbols, read through the lookups. *)
Local Abbreviation agree st :=
  (forall n a,
      lookup st n = Some a <->
      addr_get (items (addr st)) {| ak_addr := a; ak_name := n |} = Some tt).

Lemma stab_consistent_iff (st : stab) :
  sym_sorted st -> addr_sorted st ->
  (stab_consistent st = true <-> agree st).
Proof.
  intros Hss Has. unfold stab_consistent.
  rewrite andb_true_iff, !forallb_forall. split.
  - intros [Hs Ha] n a. split.
    + intros Hl. apply (items_get_In sym_table_def) in Hl.
      specialize (Hs _ Hl). simpl in Hs. unfold has_key, btree_get in Hs.
      destruct (addr_get _ _) as [[]|]; [reflexivity | discriminate].
    + intros Hg. apply (items_get_In addr_table_def) in Hg.
      specialize (Ha _ Hg). simpl in Ha. unfold lookup.
      destruct (btree_get _ _ _); simpl in Ha; [|discriminate].
      apply Z.eqb_eq in Ha. congruence.
  - intros H. split.
    + intros [[n] a] Hin. simpl. unfold has_key, btree_get.
      apply (In_items_get sym_table_def) in Hin; [|exact Hss].
      apply H in Hin. now rewrite Hin.
    + intros [[a n] []] Hin. simpl.
      apply (In_items_get addr_table_def) in Hin; [|exact Has].
      apply H in Hin. unfold lookup in Hin. rewrite Hin. apply Z.eqb_refl.
Qed.

Lemma without_old_get (st : stab) (name : list byte) (k : addr_key) :
  addr_sorted st ->
  addr_get (without_old_entry st name) k =
  match lookup st (key_of name) with
  | Some o =>
      if compare addr_table_def k {| ak_addr := o; ak_name := key_of name |} =? 0
      then None
      else addr_get (items (addr st)) k
  | None => addr_get (items (addr st)) k
  end.
Proof.
  intros Hs. unfold without_old_entry.
  destruct (lookup st (key_of name)); [|reflexivity].
  now apply (items_get_delete addr_table_def).
Qed.

Lemma stab_set_agree (st : stab) (name : list byte) (value : Z) :
  addr_sorted st -> agree st ->
  agree (fst (set true true st name value)).
Proof.
  intros Hs Hag n x.
  destruct (stab_set_spec true true st name value) as (Ea & Es & _).
  cbn [andb] in Ea, Es. unfold lookup, btree_get. rewrite Es, Ea.
  rewrite !(items_get_put _), without_old_get by exact Hs.
  destruct (cmp_eqb_cases sym_table_def {| sym_name := n |}
                          {| sym_name := key_of name |}) as [[Hn E1]|[Hn E1]];
    rewrite E1.
  - injection Hn as ->.
    destruct (cmp_eqb_cases addr_table_def
                {| ak_addr := x; ak_name := key_of name |}
                {| ak_addr := to_addr value; ak_name := key_of name |})
      as [[Hx E2]|[Hx E2]]; rewrite E2.
    + injection Hx as ->. now split.
    + split; [intros [= <-]; contradiction|].
      destruct (lookup st (key_of name)) as [o|] eqn:L.
      * destruct (cmp_eqb_cases addr_table_def
                    {| ak_addr := x; ak_name := key_of name |}
                    {| ak_addr := o; ak_name := key_of name |})
          as [[Ho E3]|[Ho E3]]; rewrite E3; [discriminate|].
        intros Hg. apply Hag in Hg. congruence.
      * intros Hg. apply Hag in Hg. congruence.
  - assert (N1 : forall y, {| ak_addr := x; ak_name := n |}
                           <> {| ak_addr := y; ak_name := key_of name |})
      by (intros y [= _ ->]; contradiction).
    rewrite (cmp_eqb_neq addr_table_def _ _ (N1 (to_addr value))).
    destruct (lookup st (key_of name)) as [o|];
      [rewrite (cmp_eqb_neq addr_table_def _ _ (N1 o))|]; apply Hag.
Qed.

Lemma stab_del_agree (st : stab) (name : list byte) :
  sym_sorted st -> addr_sorted st -> agree st ->
  agree (fst (stab_del st name)).
Proof.
  intros Hss Has Hag. pose proof (stab_del_spec st name) as S.
  destruct (lookup st (key_of name)) as [a|] eqn:L; [|now rewrite S].
  destruct S as (_ & Es & Ea). intros n x.
  unfold lookup, btree_get. rewrite Es, Ea.
  rewrite (items_get_delete sym_table_def), (items_get_delete addr_table_def)
    by assumption.
  destruct (cmp_eqb_cases sym_table_def {| sym_name := n |}
                          {| sym_name := key_of name |}) as [[Hn E1]|[Hn E1]];
    rewrite E1.
  - injection Hn as ->. split; [discriminate|].
    destruct (cmp_eqb_cases addr_table_def
                {| ak_addr := x; ak_name := key_of name |}
                {| ak_addr := a; ak_name := key_of name |})
      as [[Hx E2]|[Hx E2]]; rewrite E2; [discriminate|].
    intros Hg. apply Hag in Hg. congruence.
  - rewrite (cmp_eqb_neq addr_table_def).
    + apply Hag.
    + intros [= _ ->]. contradiction.
Qed.

(** [stab_nearest] moves the seek position of the address index and
    nothing else. *)
Lemma stab_nearest_same_records (st : stab) (q : Z) (buf : list byte)
      (max_len off : Z) :
  same_records st (fst (fst (fst (stab_nearest address_bits st q buf max_len off)))).
Proof.
  unfold stab_nearest, btree_select.
  destruct (items_le _ _ _) as [i|]; [destruct (nth_error _ i) as [[e u]|]|];
    simpl; now split.
Qed.

(** *** Enumeration *)

Lemma btree_select_next (bt : btree addr_key unit)
      (pre rest : list (addr_key * unit)) (e : addr_key * unit) :
  items bt = pre ++ e :: rest -> cursor bt = Some (length pre) ->
  btree_select addr_table_def bt None BTREE_NEXT =
  match rest with
  | [] => ({| items := items bt; cursor := None |}, None)
  | e' :: _ => ({| items := items bt; cursor := Some (S (length pre)) |}, Some e')
  end.
Proof.
  intros Hi Hc. unfold btree_select. rewrite Hc. simpl option_map. cbv beta iota.
  rewrite Hi at 1.
  replace (nth_error (pre ++ e :: rest) (S (length pre))) with (nth_error rest 0).
  - destruct rest; reflexivity.
  - rewrite nth_error_app2 by lia.
    replace (S (length pre) - length pre)%nat with 1%nat by lia. reflexivity.
Qed.

Lemma stab_enum_loop_S (U : Type) (cb : U -> list byte -> Z -> U * Z)
      (fuel : nat) (bt : btree addr_key unit) (k : addr_key) (x : unit) (u : U) :
  stab_enum_loop (S fuel) bt (Some (k, x)) cb u =
  let (u', r) := cb u (ak_name k) (ak_addr k) in
  if r <? 0 then Some (bt, u', -1)
  else
    let (bt', ret') := btree_select addr_table_def bt None BTREE_NEXT in
    stab_enum_loop fuel bt' ret' cb u'.
Proof. reflexivity. Qed.

Lemma stab_enum_loop_spec (U : Type) (cb : U -> list byte -> Z -> U * Z) :
  forall (rest pre : list (addr_key * unit)) (e : addr_key * unit)
         (fuel : nat) (bt : btree addr_key unit) (u : U),
    items bt = pre ++ e :: rest -> cursor bt = Some (length pre) ->
    (length (e :: rest) < fuel)%nat ->
    exists bt',
      items bt' = items bt /\
      stab_enum_loop fuel bt (Some e) cb u =
      Some (bt', fst (deliver cb u (map fst (e :: rest))),
            snd (deliver cb u (map fst (e :: rest)))).
Proof.
  induction rest as [|e' rest IH]; intros pre [k []] fuel bt u Hi Hc Hf;
    (destruct fuel as [|fuel]; [simpl in Hf; lia|]);
    rewrite stab_enum_loop_S; simpl map; simpl deliver;
    destruct (cb u (ak_name k) (ak_addr k)) as [u' r];
    (destruct (r <? 0); [exists bt; now split|]);
    erewrite (btree_select_next bt pre _ (k, tt)) by eassumption.
  - destruct fuel as [|fuel]; [simpl in Hf; lia|]. simpl.
    eexists. split; [|reflexivity]. reflexivity.
  - destruct (IH (pre ++ [(k, tt)]) e' fuel
                 {| items := items bt; cursor := Some (S (length pre)) |} u')
      as (bt' & Hb & Hr).
    + simpl. rewrite Hi, <- app_assoc. reflexivity.
    + simpl. rewrite length_app. simpl. f_equal. lia.
    + simpl in Hf |- *. lia.
    + exists bt'. split; [exact Hb | exact Hr].
Qed.

Lemma stab_enum_deliver (U : Type) (cb : U -> list byte -> Z -> U * Z)
      (fuel : nat) (st : stab) (u : U) :
  (length (entries st) < fuel)%nat ->
  exists st',
    same_records st st' /\
    stab_enum fuel st cb u =
    Some (st', fst (deliver cb u (entries st)), snd (deliver cb u (entries st))).
Proof.
  unfold entries, keys, stab_enum, btree_select. simpl nth_error.
  destruct (items (addr st)) as [|e rest] eqn:Hi; intros Hf.
  - destruct fuel as [|fuel]; [simpl in Hf; lia|]. simpl.
    eexists. split; [|reflexivity]. split; [reflexivity | now simpl].
  - rewrite length_map in Hf.
    destruct (stab_enum_loop_spec U cb rest [] e fuel
                {| items := e :: rest; cursor := Some O |} u eq_refl eq_refl Hf)
      as (bt' & Hb & Hr).
    rewrite Hr. eexists. split; [|reflexivity].
    split; [reflexivity | simpl; now rewrite Hb].
Qed.

Lemma stab_enum_loop_items (U : Type) (cb : U -> list byte -> Z -> U * Z) :
  forall (fuel : nat) (bt bt' : btree addr_key unit)
         (ret : option (addr_key * unit)) (u u' : U) (r : Z),
    stab_enum_loop fuel bt ret cb u = Some (bt', u', r) ->
    items bt' = items bt.
Proof.
  induction fuel as [|fuel IH]; intros bt bt' ret u u' r; [discriminate|].
  destruct ret as [[k x]|]; [rewrite stab_enum_loop_S | now intros [= <- _ _]].
  destruct (cb u (ak_name k) (ak_addr k)) as [u1 r1].
  destruct (r1 <? 0); [now intros [= <- _ _]|].
  pose proof (btree_select_items addr_table_def bt None BTREE_NEXT) as Hi.
  destruct (btree_select addr_table_def bt None BTREE_NEXT) as [bt1 ret1].
  intros H. apply IH in H. simpl in Hi. congruence.
Qed.

Lemma stab_enum_same_records (U : Type) (cb : U -> list byte -> Z -> U * Z)
      (fuel : nat) (st st' : stab) (u u' : U) (r : Z) :
  stab_enum fuel st cb u = Some (st', u', r) -> same_records st st'.
Proof.
  unfold stab_enum.
  pose proof (btree_select_items addr_table_def (addr st) None BTREE_FIRST) as Hi.
  destruct (btree_select addr_table_def (addr st) None BTREE_FIRST) as [bt ret].
  destruct (stab_enum_loop fuel bt ret cb u) as [[[bt' u1] r1]|] eqn:E;
    [|discriminate].
  intros [= <- _ _]. apply stab_enum_loop_items in E. simpl in Hi.
  split; simpl; congruence.
Qed.

Lemma accepts_cons (U : Type) (cb : U -> list byte -> Z -> U * Z) (u : U)
      (e : addr_key) (es : list addr_key) :
  0 <= snd (cb u (ak_name e) (ak_addr e)) ->
  accepts cb (fst (cb u (ak_name e) (ak_addr e))) es ->
  accepts cb u (e :: es).
Proof.
  intros H0 H [|x pre] e0 post E; simpl in E; injection E as -> E.
  - exact H0.
  - subst es. apply (H pre e0 post eq_refl).
Qed.

Lemma deliver_spec (U : Type) (cb : U -> list byte -> Z -> U * Z) :
  forall (es : list addr_key) (u : U),
    (accepts cb u es /\ deliver cb u es = (calls cb u es, 0))
    \/ exists pre e post,
        es = pre ++ e :: post /\ accepts cb u pre
        /\ snd (cb (calls cb u pre) (ak_name e) (ak_addr e)) < 0
        /\ deliver cb u es = (calls cb u (pre ++ [e]), -1).
Proof.
  induction es as [|e es IH]; intros u.
  - left. split; [|reflexivity]. intros [|x pre] e0 post E; discriminate.
  - simpl deliver. destruct (cb u (ak_name e) (ak_addr e)) as [u' r] eqn:C.
    destruct (Z.ltb_spec r 0) as [L|L].
    + right. exists [], e, es. repeat split.
      * intros [|x pre] e0 post E; discriminate.
      * simpl. now rewrite C.
      * simpl. now rewrite C.
    + assert (A0 : 0 <= snd (cb u (ak_name e) (ak_addr e))) by now rewrite C.
      assert (A1 : fst (cb u (ak_name e) (ak_addr e)) = u') by now rewrite C.
      destruct (IH u') as [[Ha Hd]|(pre & e0 & post & -> & Ha & Hr & Hd)].
      * left. split.
        -- apply accepts_cons; [exact A0 | now rewrite A1].
        -- rewrite Hd. unfold calls. simpl. now rewrite A1.
      * right. exists (e :: pre), e0, post. repeat split.
        -- apply accepts_cons; [exact A0 | now rewrite A1].
        -- unfold calls in *. simpl. now rewrite A1.
        -- rewrite Hd. unfold calls. simpl. now rewrite A1.
Qed.

(** *** Histories *)

(** Every table of a history without a failed [stab_set] is well formed,
    and its two indexes hold the same symbols. *)
Lemma stab_history_inv (st : stab) :
  stab_history address_bits st -> wf st = true /\ stab_consistent st = true.
Proof.
  induction 1 as [| st | st st' oa os name value _ [IHw IHc] E
                  | st st' name r _ [IHw IHc] E
                  | st st' q buf buf' max_len off off' r _ [IHw IHc] E
                  | U st st' fuel cb u u' r _ [IHw IHc] E].
  - now split.
  - now split.
  - destruct (stab_set_success _ _ _ _ _ _ E) as [-> ->].
    assert (st' = fst (set true true st name value)) as -> by now rewrite E.
    pose proof (stab_set_wf true true st name value IHw) as W. split; [exact W|].
    apply stab_wf_iff in W. destruct W as (W1 & W2 & _).
    apply stab_wf_iff in IHw. destruct IHw as (V1 & V2 & _).
    apply stab_consistent_iff; try assumption.
    apply stab_set_agree; [exact V2|]. now apply stab_consistent_iff.
  - assert (st' = fst (stab_del st name)) as -> by now rewrite E.
    pose proof (stab_del_wf st name IHw) as W. split; [exact W|].
    apply stab_wf_iff in W. destruct W as (W1 & W2 & _).
    apply stab_wf_iff in IHw. destruct IHw as (V1 & V2 & _).
    apply stab_consistent_iff; try assumption.
    apply stab_del_agree; try assumption. now apply stab_consistent_iff.
  - pose proof (stab_nearest_same_records st q buf max_len off) as S.
    rewrite E in S. simpl in S.
    now rewrite (same_records_wf _ _ S), (same_records_consistent _ _ S).
  - apply stab_enum_same_records in E.
    now rewrite (same_records_wf _ _ E), (same_records_consistent _ _ E).
Qed.

Lemma entry_get (st : stab) (a : Z) (n : list byte) :
  addr_sorted st ->
  (entry st a n <->
   addr_get (items (addr st)) {| ak_addr := a; ak_name := n |} = Some tt).
Proof.
  intros Hs. unfold entry, entries, keys. rewrite in_map_iff. split.
  - intros [[k []] [<- Hin]]. now apply (In_items_get addr_table_def).
  - intros Hg. apply (items_get_In addr_table_def) in Hg.
    now exists ({| ak_addr := a; ak_name := n |}, tt).
Qed.

Lemma consistent_cross_index (st : stab) :
  wf st = true -> stab_consistent st = true -> cross_index_consistent st.
Proof.
  intros W C. apply stab_wf_iff in W. destruct W as (W1 & W2 & _).
  pose proof (proj1 (stab_consistent_iff st W1 W2) C) as A. clear C.
  rename A into C. intros n a Hin.
  apply (In_items_get sym_table_def) in Hin; [|exact W1].
  split.
  - apply (sorted_once addr_table_def _ {| ak_addr := a; ak_name := n |}).
    + intros [a' n']. simpl. rewrite andb_true_iff, !Z.eqb_eq, strcmp_eq.
      split; [intros [-> ->]; reflexivity | intros [= -> ->]; now split].
    + exact W2.
    + apply (entry_get st a n W2). apply C. exact Hin.
  - intros a' He. apply (entry_get st a' n W2), C in He.
    unfold lookup, btree_get in He. congruence.
Qed.

(** *** Nearest address *)

Lemma probe_compare (k : addr_key) (q : Z) :
  name_ok (ak_name k) = true ->
  (compare addr_table_def k {| ak_addr := q; ak_name := probe_name |} <= 0
   <-> ak_addr k <= q).
Proof.
  unfold name_ok. rewrite andb_true_iff, Nat.ltb_lt. intros [Hlen _].
  pose proof (strcmp_below_ff (ak_name k) NAME_SIZE Hlen) as Hp.
  fold probe_name in Hp.
  change (compare addr_table_def) with addr_key_compare.
  unfold addr_key_compare. cbn [ak_addr ak_name].
  destruct (Z.ltb_spec (ak_addr k) q); destruct (Z.gtb_spec (ak_addr k) q); lia.
Qed.

Lemma addr_compare_le (x y : addr_key) :
  compare addr_table_def x y <= 0 ->
  ak_addr x <= ak_addr y
  /\ (ak_addr x = ak_addr y -> strcmp (ak_name x) (ak_name y) <= 0).
Proof.
  change (compare addr_table_def) with addr_key_compare.
  unfold addr_key_compare.
  destruct (Z.ltb_spec (ak_addr x) (ak_addr y));
    destruct (Z.gtb_spec (ak_addr x) (ak_addr y)); lia.
Qed.

Lemma wf_entry_ok (st : stab) (e : addr_key) :
  wf st = true -> In e (entries st) ->
  name_ok (ak_name e) = true /\ is_address address_bits (ak_addr e) = true.
Proof.
  intros W Hin. apply stab_wf_iff in W. destruct W as (_ & _ & _ & W4).
  unfold entries, keys in Hin. apply in_map_iff in Hin.
  destruct Hin as [[k u] [<- Hin]]. now apply (W4 k u).
Qed.

Lemma nearest_entry_None (st : stab) (q : Z) :
  wf st = true ->
  (nearest_entry st q = None <-> forall e, In e (entries st) -> q < ak_addr e).
Proof.
  intros W. pose proof W as W'. apply stab_wf_iff in W'.
  destruct W' as (_ & W2 & _).
  unfold nearest_entry, btree_select.
  set (p := {| ak_addr := q; ak_name := probe_name |}).
  destruct (items_le addr_table_def (items (addr st)) p) as [i|] eqn:E.
  - destruct (items_le_Some addr_table_def _ _ _ W2 E) as (k & v & Hn & Hle & _).
    rewrite Hn. simpl. split; [discriminate|]. intros H.
    assert (Hin : In k (entries st))
      by (apply nth_error_In in Hn; apply (in_map fst) in Hn; exact Hn).
    specialize (H k Hin).
    apply probe_compare in Hle; [lia | now apply (wf_entry_ok st k W)].
  - simpl. split; [|reflexivity]. intros _ e Hin.
    pose proof (wf_entry_ok st e W Hin) as [Hok _].
    pose proof (probe_compare e q Hok) as Hp. fold p in Hp.
    unfold entries, keys in Hin. apply in_map_iff in Hin.
    destruct Hin as [[k u] [<- Hin]]. cbn [fst] in *.
    pose proof (proj1 (items_le_None addr_table_def _ p W2) E k u Hin). lia.
Qed.

Lemma nearest_entry_Some (st : stab) (q : Z) (e : addr_key) :
  wf st = true -> nearest_entry st q = Some e ->
  predecessor st q (ak_addr e) (ak_name e).
Proof.
  intros W. pose proof W as W'. apply stab_wf_iff in W'.
  destruct W' as (_ & W2 & _).
  unfold nearest_entry, btree_select.
  set (p := {| ak_addr := q; ak_name := probe_name |}).
  destruct (items_le addr_table_def (items (addr st)) p) as [i|] eqn:E;
    [|discriminate].
  destruct (items_le_Some addr_table_def _ _ _ W2 E) as (k & v & Hn & Hle & Hmax).
  rewrite Hn. simpl. intros [= <-].
  assert (Hin : In k (entries st))
    by (apply nth_error_In in Hn; apply (in_map fst) in Hn; exact Hn).
  assert (Hmax' : forall e', In e' (entries st) -> ak_addr e' <= q ->
                             compare addr_table_def e' k <= 0).
  { intros e' Hin' Hq. pose proof (wf_entry_ok st e' W Hin') as [Hok _].
    unfold entries, keys in Hin'. apply in_map_iff in Hin'.
    destruct Hin' as [[k' u'] [<- Hin']]. apply (Hmax k' u' Hin').
    now apply probe_compare. }
  unfold predecessor, entry. repeat split.
  - now destruct k.
  - apply probe_compare in Hle; [exact Hle | now apply (wf_entry_ok st k W)].
  - intros e' Hin' Hq. now apply addr_compare_le, Hmax'.
  - intros n' Hin'.
    assert (Hq : ak_addr k <= q)
      by (apply probe_compare in Hle; [exact Hle | now apply (wf_entry_ok st k W)]).
    pose proof (Hmax' _ Hin' Hq) as Hc. apply addr_compare_le in Hc.
    now apply Hc.
Qed.

Lemma stab_nearest_unfold (st : stab) (q : Z) (buf : list byte)
      (max_len off : Z) :
  let r := stab_nearest address_bits st q buf max_len off in
  match nearest_entry st q with
  | Some e =>
      snd (fst (fst r)) = 0
      /\ snd (fst r) =
           store (strncpy buf (ak_name e) (Z.to_nat max_len)) (max_len - 1) x00
      /\ snd r = to_addr (q - ak_addr e)
  | None => snd (fst (fst r)) = -1 /\ snd (fst r) = buf /\ snd r = off
  end.
Proof.
  unfold stab_nearest, nearest_entry.
  destruct (btree_select addr_table_def (addr st) _ BTREE_LE) as [bt [[k u]|]];
    simpl; now repeat split.
Qed.

Lemma forallb_firstn (f : byte -> bool) (l : list byte) (n : nat) :
  forallb f l = true -> forallb f (firstn n l) = true.
Proof.
  revert n. induction l as [|b l IH]; intros [|n]; simpl; try reflexivity.
  rewrite !andb_true_iff. intros [H1 H2]. split; [exact H1 | now apply IH].
Qed.

Lemma firstn_repeat (b : byte) (j m : nat) :
  firstn j (repeat b m) = repeat b (Nat.min j m).
Proof.
  revert m. induction j as [|j IH]; intros [|m]; simpl; try reflexivity.
  f_equal. apply IH.
Qed.

Lemma c_str_padded (p r : list byte) (j : nat) :
  forallb (fun b => negb (is_nul b)) p = true ->
  c_str (p ++ repeat x00 j ++ x00 :: r) = p.
Proof.
  intros H. destruct j as [|j]; simpl; now apply c_str_app_nul.
Qed.

(** The string left in the caller's buffer by [strncpy] and the store of
    the terminator. *)
Lemma ret_name_c_str (buf n : list byte) (max_len : Z) :
  forallb (fun b => negb (is_nul b)) n = true ->
  1 <= max_len <= Z.of_nat (length buf) ->
  c_str (store (strncpy buf n (Z.to_nat max_len)) (max_len - 1) x00)
  = firstn (Z.to_nat (max_len - 1)) n.
Proof.
  intros Hn Hm.
  remember (Z.to_nat max_len) as m eqn:Em.
  assert (M1 : (1 <= m <= length buf)%nat) by lia.
  replace (Z.to_nat (max_len - 1)) with (m - 1)%nat by lia.
  assert (L1 : length (firstn m (n ++ repeat x00 m)) = m).
  { rewrite length_firstn, length_app, repeat_length. lia. }
  assert (L : length (strncpy buf n m) = length buf).
  { unfold strncpy. rewrite length_app, L1, length_skipn. lia. }
  unfold store. rewrite L.
  replace ((0 <=? max_len - 1) && (max_len - 1 <? Z.of_nat (length buf)))
    with true
    by (symmetry; apply andb_true_iff; split;
        [apply Z.leb_le | apply Z.ltb_lt]; lia).
  replace (Z.to_nat (max_len - 1)) with (m - 1)%nat by lia.
  unfold strncpy at 1.
  rewrite firstn_app, L1, firstn_firstn.
  replace (m - 1 - m)%nat with O by lia.
  replace (Nat.min (m - 1) m) with (m - 1)%nat by lia.
  rewrite firstn_O, app_nil_r, firstn_app, firstn_repeat.
  rewrite <- app_assoc. apply c_str_padded. now apply forallb_firstn.
Qed.

(** Every table the public functions produce is well formed, also after
    a failed [stab_set]. *)
Lemma stab_reachable_wf (st : stab) :
  stab_reachable address_bits st -> wf st = true.
Proof.
  induction 1 as [| st | st oa os name value _ IH | st name _ IH
                  | st q buf max_len off _ IH
                  | U st st' fuel cb u u' r _ IH E].
  - reflexivity.
  - reflexivity.
  - now apply stab_set_wf.
  - now apply stab_del_wf.
  - pose proof (stab_nearest_same_records st q buf max_len off) as S.
    now rewrite (same_records_wf _ _ S).
  - apply stab_enum_same_records in E. now rewrite (same_records_wf _ _ E).
Qed.

End StabFacts.

(** * The properties of the symbol table *)

Section StabProperties.
Variable address_bits : N.


Lemma stab_get_after_set (oa os : bool) (st st1 : stab) (name : list byte)
      (value : Z) :
  stab_set address_bits oa os st name value = (st1, 0) ->
  lookup st1 (key_of name) = Some (to_address address_bits value)
  /\ forall v, stab_get st1 name v = (0, to_address address_bits value).
Proof.
  intros E. destruct (stab_set_success _ _ _ _ _ _ _ E) as [-> ->].
  destruct (stab_set_spec address_bits true true st name value) as (_ & Es & _).
  rewrite E in Es. cbn [andb fst] in Es.
  assert (L : lookup st1 (key_of name) = Some (to_address address_bits value)).
  { unfold lookup, btree_get. rewrite Es, (items_get_put sym_table_def).
    now rewrite (cmp_eqb_refl sym_table_def). }
  split; [exact L|]. intros v. unfold stab_get. rewrite sym_key_init_eq.
  unfold lookup in L. now rewrite L.
Qed.

Lemma stab_set_same_key (oa os : bool) (st : stab) (n1 n2 : list byte)
      (value : Z) :
  key_of n1 = key_of n2 ->
  stab_set address_bits oa os st n1 value
  = stab_set address_bits oa os st n2 value.
Proof.
  intros H. unfold stab_set.
  rewrite !sym_key_init_eq, (addr_key_init_eq (to_address address_bits value) n1),
    (addr_key_init_eq (to_address address_bits value) n2), H.
  reflexivity.
Qed.

Lemma name_ok_nonul (n : list byte) :
  name_ok n = true -> forallb (fun b => negb (is_nul b)) n = true.
Proof. unfold name_ok. rewrite andb_true_iff. tauto. Qed.

Lemma name_ok_length (n : list byte) :
  name_ok n = true -> (length n < NAME_SIZE)%nat.
Proof. unfold name_ok. rewrite andb_true_iff, Nat.ltb_lt. tauto. Qed.

Lemma nearest_entry_same (st st' : stab) (q : Z) :
  same_records st st' -> nearest_entry st' q = nearest_entry st q.
Proof.
  intros [_ Ea]. unfold nearest_entry, btree_select. now rewrite Ea.
Qed.

Lemma addr_compare_before (x y : addr_key) :
  compare addr_table_def x y < 0 -> entry_before x y.
Proof.
  change (compare addr_table_def) with addr_key_compare.
  unfold addr_key_compare, entry_before.
  destruct (Z.ltb_spec (ak_addr x) (ak_addr y));
    destruct (Z.gtb_spec (ak_addr x) (ak_addr y)); lia.
Qed.

Lemma sorted_entry_before (l : list addr_key) :
  sortedb addr_table_def l = true -> StronglySorted entry_before l.
Proof.
  induction l as [|x l IH]; simpl; [constructor|].
  rewrite andb_true_iff, forallb_forall. intros [Hlt Hs].
  constructor; [now apply IH|]. apply Forall_forall. intros y Hin.
  apply addr_compare_before, Z.ltb_lt, Hlt, Hin.
Qed.

(** C1: in every table that the public functions produce from a new or a
    cleared table while no [stab_set] fails, each name [n] of the name
    index, stored with address [a], has exactly one entry (a, n) in the
    address index and no entry at another address. *)
Theorem stab_cross_index_invariant (st : stab) :
  stab_history address_bits st -> cross_index_consistent st.
Proof.
  intros H. destruct (stab_history_inv address_bits st H) as [W C].
  now apply (consistent_cross_index address_bits).
Qed.

(** C2: when some stored address is not above the query address [q],
    [stab_nearest] returns 0, the offset of [q] from the greatest such
    address, and the last name stored at that address, cut to the
    [max_len - 1] bytes the buffer takes (the whole name when the buffer
    is longer than the name). *)
Theorem stab_nearest_predecessor (st : stab) (q : Z) (ret_name : list byte)
        (max_len ret_offset : Z) :
  stab_wf address_bits st = true ->
  is_address address_bits q = true ->
  1 <= max_len <= Z.of_nat (length ret_name) ->
  nearest_returns_cut_name address_bits st q ret_name max_len ret_offset.
Proof.
  intros W Q M (e0 & Hin0 & Hle0).
  pose proof (stab_nearest_unfold address_bits st q ret_name max_len ret_offset)
    as U.
  cbv zeta in U. destruct (nearest_entry st q) as [e|] eqn:E.
  - pose proof (nearest_entry_Some address_bits st q e W E) as P.
    assert (He : In e (entries st)) by (destruct P as [P _]; now destruct e).
    destruct (wf_entry_ok address_bits st e W He) as [Hok Ha].
    destruct (stab_nearest address_bits st q ret_name max_len ret_offset)
      as [[[st' r] buf'] off'].
    simpl in U. destruct U as (-> & -> & ->).
    exists st', (store (strncpy ret_name (ak_name e) (Z.to_nat max_len))
                       (max_len - 1) x00), (ak_addr e), (ak_name e).
    assert (C : c_str (store (strncpy ret_name (ak_name e) (Z.to_nat max_len))
                             (max_len - 1) x00)
                = firstn (Z.to_nat (max_len - 1)) (ak_name e))
      by (apply ret_name_c_str; [now apply name_ok_nonul | exact M]).
    repeat split; try apply P; try exact C.
    + do 2 f_equal. apply to_address_id.
      destruct P as (_ & Hq & _). unfold is_address in *.
      rewrite andb_true_iff, Z.leb_le, Z.ltb_lt in *. lia.
    + intros L. rewrite C. apply firstn_all2. lia.
  - pose proof (proj1 (nearest_entry_None address_bits st q W) E e0 Hin0). lia.
Qed.

(** C3: after a successful [stab_set] of a name to [a1], [stab_get]
    returns [a1]; after a further successful [stab_set] of the name to
    [a2], [stab_get] returns [a2], and when [a2] differs from [a1] the
    address index has no entry ([a1], name) any more. *)
Theorem stab_set_get_overwrite (st : stab) (n : list byte) (a1 a2 : Z) :
  stab_wf address_bits st = true ->
  is_address address_bits a1 = true ->
  is_address address_bits a2 = true ->
  roundtrip_overwrite_distinct address_bits st n a1 a2.
Proof.
  intros W A1 A2 oa os st1 E1.
  destruct (stab_get_after_set _ _ _ _ _ _ E1) as [L1 G1].
  rewrite (to_address_id _ _ A1) in L1, G1. split; [exact G1|].
  intros oa' os' st2 E2.
  destruct (stab_get_after_set _ _ _ _ _ _ E2) as [L2 G2].
  rewrite (to_address_id _ _ A2) in L2, G2. split; [exact G2|].
  intros Hne He.
  destruct (stab_set_success _ _ _ _ _ _ _ E1) as [-> ->].
  destruct (stab_set_success _ _ _ _ _ _ _ E2) as [-> ->].
  pose proof (stab_set_wf address_bits true true st n a1 W) as W1.
  rewrite E1 in W1. cbn [fst] in W1.
  pose proof (stab_set_wf address_bits true true st1 n a2 W1) as W2.
  rewrite E2 in W2. cbn [fst] in W2.
  apply stab_wf_iff in W1, W2.
  destruct W1 as (_ & S1 & _). destruct W2 as (_ & S2 & _).
  apply (entry_get st2 a1 (key_of n) S2) in He.
  destruct (stab_set_spec address_bits true true st1 n a2) as (Ea & _).
  rewrite E2 in Ea. cbn [fst] in Ea.
  rewrite Ea, (items_get_put addr_table_def), (to_address_id _ _ A2) in He.
  rewrite (cmp_eqb_neq addr_table_def) in He by congruence.
  rewrite without_old_get, L1, (cmp_eqb_refl addr_table_def) in He by exact S1.
  discriminate.
Qed.

(** C4: [stab_del] returns -1 exactly when the name has no entry in the
    name index; otherwise it returns 0, the name is gone from the name
    index and the entry (recorded address, name) from the address index,
    and from then on, as long as the records stay the same, [stab_get] of
    the name returns -1; when the two indexes held the same symbols
    before the call, the address index has no entry of the name left and
    no [stab_nearest] query resolves to the name. *)
Theorem stab_del_removes (st : stab) (name : list byte) :
  stab_wf address_bits st = true ->
  let k := key_of name in
  let st' := fst (stab_del st name) in
  let r := snd (stab_del st name) in
  (r = -1 <-> lookup st k = None)
  /\ (r <> -1 ->
      r = 0
      /\ (exists a, lookup st k = Some a /\ ~ entry st' a k)
      /\ lookup st' k = None
      /\ forall st'',
          same_records st' st'' ->
          (forall v, stab_get st'' name v = (-1, v))
          /\ (stab_consistent st = true ->
              (forall a, ~ entry st'' a k)
              /\ (forall q e, nearest_entry st'' q = Some e -> ak_name e <> k)
              /\ (forall q ret_name max_len ret_offset,
                     Z.of_nat NAME_SIZE <= max_len
                                        <= Z.of_nat (length ret_name) ->
                     let out := stab_nearest address_bits st'' q ret_name
                                             max_len ret_offset in
                     snd (fst (fst out)) = 0 -> c_str (snd (fst out)) <> k))).
Proof.
  intros W k st' r. subst k st' r.
  pose proof (stab_del_wf address_bits st name W) as W'.
  pose proof W as Wp. apply stab_wf_iff in Wp. destruct Wp as (S1 & S2 & _).
  pose proof W' as Wq. apply stab_wf_iff in Wq. destruct Wq as (_ & S2' & _).
  pose proof (stab_del_spec st name) as D.
  destruct (lookup st (key_of name)) as [a|] eqn:L.
  2:{ rewrite D. simpl. split; [now split|]. intros H. now contradiction H. }
  destruct D as (R & Es & Ea). rewrite R.
  split; [split; discriminate|]. intros _.
  assert (L' : lookup (fst (stab_del st name)) (key_of name) = None).
  { unfold lookup, btree_get.
    rewrite Es, (items_get_delete sym_table_def) by exact S1.
    now rewrite (cmp_eqb_refl sym_table_def). }
  assert (G : forall a',
             items_get addr_table_def (items (addr (fst (stab_del st name))))
                       {| ak_addr := a'; ak_name := key_of name |} = Some tt ->
             a' <> a
             /\ items_get addr_table_def (items (addr st))
                          {| ak_addr := a'; ak_name := key_of name |} = Some tt).
  { intros a'. rewrite Ea, (items_get_delete addr_table_def) by exact S2.
    destruct (cmp_eqb_cases addr_table_def
                {| ak_addr := a'; ak_name := key_of name |}
                {| ak_addr := a; ak_name := key_of name |}) as [[Hx X]|[Hx X]];
      rewrite X; [discriminate|].
    intros H. split; [congruence | exact H]. }
  split; [reflexivity|]. split; [|split; [exact L'|]].
  - exists a. split; [reflexivity|]. intros He.
    apply (entry_get _ a (key_of name) S2'), G in He. now destruct He.
  - intros st'' SR.
    assert (W'' : stab_wf address_bits st'' = true)
      by now rewrite (same_records_wf address_bits _ _ SR).
    split.
    { intros v. unfold stab_get. rewrite sym_key_init_eq.
      destruct SR as [SRs _]. unfold lookup, btree_get in L' |- *.
      now rewrite SRs, L'. }
    intros C. pose proof (proj1 (stab_consistent_iff st S1 S2) C) as A.
    assert (N : forall a', ~ entry st'' a' (key_of name)).
    { intros a' He.
      assert (He' : entry (fst (stab_del st name)) a' (key_of name))
        by (unfold entry, entries, keys in *; destruct SR as [_ <-]; exact He).
      apply (entry_get _ a' (key_of name) S2'), G in He'.
      destruct He' as [Hne He']. apply A in He'. congruence. }
    assert (NE : forall q e, nearest_entry st'' q = Some e ->
                             ak_name e <> key_of name).
    { intros q e E Hk.
      destruct (nearest_entry_Some address_bits st'' q e W'' E) as [P _].
      rewrite Hk in P. exact (N _ P). }
    split; [exact N|]. split; [exact NE|].
    intros q buf max_len off M out. subst out.
    pose proof (stab_nearest_unfold address_bits st'' q buf max_len off) as U.
    cbv zeta in U. destruct (nearest_entry st'' q) as [e|] eqn:E.
    + destruct U as (_ & -> & _). intros _.
      destruct (nearest_entry_Some address_bits st'' q e W'' E) as [P _].
      assert (He : In e (entries st'')) by now destruct e.
      destruct (wf_entry_ok address_bits st'' e W'' He) as [Hok _].
      pose proof (name_ok_length _ Hok) as Hl.
      rewrite ret_name_c_str; [|now apply name_ok_nonul|lia].
      rewrite firstn_all2 by lia. now apply (NE q).
    + destruct U as (-> & _). discriminate.
Qed.

(** C5: with fuel for one more round than there are entries, [stab_enum]
    returns.  The entries of the address index are in strictly ascending
    order of address, then name (so none is repeated), and they are the
    symbols of the name index when the two indexes agree.  Either the
    visitor accepts all of them, called on each in that order, and the
    result is 0; or it is called on the entries up to the first one it
    refuses, on no entry after that one, and the result is -1. *)
Theorem stab_enum_visits (U : Type) (cb : U -> list byte -> Z -> U * Z)
        (user_data : U) (st : stab) (fuel : nat) :
  stab_wf address_bits st = true ->
  (length (entries st) < fuel)%nat ->
  StronglySorted entry_before (entries st)
  /\ (stab_consistent st = true ->
      forall n a, lookup st n = Some a <-> entry st a n)
  /\ exists st',
      same_records st st'
      /\ ((accepts cb user_data (entries st)
           /\ stab_enum fuel st cb user_data
              = Some (st', calls cb user_data (entries st), 0))
          \/ exists pre e post,
              entries st = pre ++ e :: post
              /\ accepts cb user_data pre
              /\ snd (cb (calls cb user_data pre) (ak_name e) (ak_addr e)) < 0
              /\ stab_enum fuel st cb user_data
                 = Some (st', calls cb user_data (pre ++ [e]), -1)).
Proof.
  intros W F. pose proof W as Wp. apply stab_wf_iff in Wp.
  destruct Wp as (S1 & S2 & _). split; [|split].
  - now apply sorted_entry_before.
  - intros C n a. rewrite (entry_get st a n S2).
    apply (stab_consistent_iff st S1 S2), C.
  - destruct (stab_enum_deliver U cb fuel st user_data F) as (st' & SR & E).
    exists st'. split; [exact SR|]. rewrite E.
    destruct (deliver_spec U cb (entries st) user_data)
      as [[Ha Hd]|(pre & e & post & Hs & Ha & Hr & Hd)]; rewrite Hd.
    + left. now split.
    + right. exists pre, e, post. now repeat split.
Qed.


(** C7: when one of the two inserts of [stab_set] fails, [stab_set]
    returns -1 and what it has done so far stays done: the name index is
    as before, the address index has lost the entry of the name's old
    address and, when it was the insert into the name index that failed,
    has gained the new entry.  What the deletes on the indexes return is
    not looked at: [stab_del] returns 0 whenever the name is found, and
    [stab_set] returns 0 whenever both inserts succeed. *)
Theorem stab_set_put_failure (st : stab) (name : list byte) (value : Z)
        (oa os : bool) :
  (oa = false \/ os = false ->
   let st' := fst (stab_set address_bits oa os st name value) in
   snd (stab_set address_bits oa os st name value) = -1
   /\ items (sym st') = items (sym st)
   /\ items (addr st') =
        if oa
        then items_put addr_table_def (without_old_entry st name)
                       {| ak_addr := to_address address_bits value;
                          ak_name := key_of name |} tt
        else without_old_entry st name)
  /\ (forall a, lookup st (key_of name) = Some a -> snd (stab_del st name) = 0)
  /\ snd (stab_set address_bits true true st name value) = 0.
Proof.
  split; [|split].
  - intros F st'. subst st'.
    destruct (stab_set_spec address_bits oa os st name value) as (Ea & Es & R & _).
    assert (B : oa && os = false)
      by (destruct oa, os; simpl; destruct F; congruence).
    rewrite B in Es, R. now repeat split.
  - intros a L. pose proof (stab_del_spec st name) as D. rewrite L in D.
    apply D.
  - apply (stab_set_spec address_bits true true st name value).
Qed.

(** C8: [stab_nearest] returns -1 exactly when the address index is empty
    or the query address lies below every stored address, and returns 0 in
    every other case. *)
Theorem stab_nearest_not_found (st : stab) (q : Z) (ret_name : list byte)
        (max_len ret_offset : Z) :
  stab_wf address_bits st = true ->
  let r := snd (fst (fst (stab_nearest address_bits st q ret_name max_len
                                       ret_offset))) in
  (r = -1 <->
   entries st = [] \/ forall e, In e (entries st) -> q < ak_addr e)
  /\ (r <> -1 -> r = 0).
Proof.
  intros W r. subst r.
  pose proof (stab_nearest_unfold address_bits st q ret_name max_len ret_offset)
    as U.
  pose proof (nearest_entry_None address_bits st q W) as N.
  cbv zeta in U. destruct (nearest_entry st q) as [e|].
  - destruct U as (-> & _). split; [|reflexivity].
    split; [discriminate|]. intros H.
    assert (X : Some e = None); [|discriminate X].
    apply N. destruct H as [He|Ha]; [|exact Ha].
    intros e' Hin. rewrite He in Hin. contradiction.
  - destruct U as (-> & _). split; [|intros H; now contradiction H].
    split; [|reflexivity]. intros _. right. now apply N.
Qed.

(** C9: a query that does not return 0 leaves the caller's outputs as they
    were: [stab_get] leaves [*value], [stab_nearest] leaves [ret_name] and
    [*ret_offset]. *)
Theorem stab_queries_keep_outputs (st : stab) :
  (forall name value,
      fst (stab_get st name value) <> 0 ->
      lookup st (key_of name) = None /\ stab_get st name value = (-1, value))
  /\ (forall q ret_name max_len ret_offset,
         let out := stab_nearest address_bits st q ret_name max_len ret_offset in
         snd (fst (fst out)) <> 0 ->
         nearest_entry st q = None
         /\ snd (fst (fst out)) = -1
         /\ snd (fst out) = ret_name /\ snd out = ret_offset).
Proof.
  split.
  - intros name value. unfold stab_get, lookup. rewrite sym_key_init_eq.
    destruct (btree_get sym_table_def (sym st) _); simpl; [|now split].
    intros H. now contradiction H.
  - intros q ret_name max_len ret_offset out. subst out.
    pose proof (stab_nearest_unfold address_bits st q ret_name max_len
                                    ret_offset) as U.
    cbv zeta in U. destruct (nearest_entry st q) as [e|].
    + destruct U as (-> & _). intros H. now contradiction H.
    + destruct U as (-> & U1 & U2). intros _. now repeat split.
Qed.

(** C10: a second successful [stab_set] of the same name to the same value
    leaves the table, both indexes, exactly as the first one left it. *)
Theorem stab_set_idempotent (st st1 st2 : stab) (oa os oa' os' : bool)
        (name : list byte) (value : Z) :
  stab_wf address_bits st = true ->
  stab_set address_bits oa os st name value = (st1, 0) ->
  stab_set address_bits oa' os' st1 name value = (st2, 0) ->
  st2 = st1.
Proof.
  intros W E1 E2.
  destruct (stab_get_after_set _ _ _ _ _ _ E1) as [L1 _].
  destruct (stab_set_success _ _ _ _ _ _ _ E1) as [-> ->].
  destruct (stab_set_success _ _ _ _ _ _ _ E2) as [-> ->].
  pose proof (stab_set_wf address_bits true true st name value W) as W1.
  rewrite E1 in W1. cbn [fst] in W1.
  apply stab_wf_iff in W1. destruct W1 as (S1 & S2 & _).
  destruct (stab_set_spec address_bits true true st name value)
    as (Ea1 & _ & _ & C1).
  destruct (stab_set_spec address_bits true true st1 name value)
    as (Ea2 & Es2 & _ & C2).
  rewrite E1 in Ea1, C1. rewrite E2 in Ea2, Es2, C2.
  cbn [andb fst] in Ea1, C1, Ea2, Es2, C2.
  destruct (C1 eq_refl) as [C1a C1s]. destruct (C2 eq_refl) as [C2a C2s].
  assert (G : items_get addr_table_def (items (addr st1))
                {| ak_addr := to_address address_bits value;
                   ak_name := key_of name |}
              = Some tt).
  { rewrite Ea1, (items_get_put addr_table_def).
    now rewrite (cmp_eqb_refl addr_table_def). }
  unfold without_old_entry in Ea2. rewrite L1 in Ea2.
  rewrite (items_put_delete addr_table_def _ _ _ S2 G) in Ea2.
  rewrite (items_put_same sym_table_def _ _ _ S1 L1) in Es2.
  destruct st1 as [[si1 sc1] [ai1 ac1]], st2 as [[si2 sc2] [ai2 ac2]].
  simpl in *. congruence.
Qed.

End StabProperties.

(** * The properties at the spec's test cases *)

(** C1 at the table of the enumeration test case. *)
Lemma stab_cross_index_invariant_witness :
  stab_history 32 (table_of [(name_c, 0x300); (name_a, 0x100)])
  /\ cross_index_consistent (table_of [(name_c, 0x300); (name_a, 0x100)]).
Proof.
  assert (H : stab_history 32 (table_of [(name_c, 0x300); (name_a, 0x100)])).
  { apply (hist_set 32 (table_of [(name_c, 0x300)]) _ true true name_a 0x100);
      [|reflexivity].
    apply (hist_set 32 stab_new _ true true name_c 0x300); [|reflexivity].
    apply hist_new. }
  split; [exact H|]. apply (stab_cross_index_invariant 32 _ H).
Defined.

(** The table left by the failed overwrite is one the public functions
    produce. *)
Lemma table_after_failed_overwrite_reachable :
  stab_reachable 32 table_after_failed_overwrite.
Proof.
  apply (reach_set 32 _ true false name_x 0x20).
  apply (reach_set 32 _ true true name_x 0x10).
  apply reach_new.
Qed.

(** C1 as stated fails after a failed [stab_set]: on the table left by
    the failed overwrite, [stab_set ("x", 0x30)] returns 0 and leaves "x"
    at 0x20 and at 0x30 in the address index. *)
Lemma stab_set_keeps_orphan_entry :
  ~ set_restores_invariant 32 table_after_failed_overwrite name_x 0x30.
Proof.
  intros H.
  specialize (H true true
                (fst (stab_set 32 true true table_after_failed_overwrite
                               name_x 0x30)) eq_refl).
  destruct (H name_x 0x30) as [_ H2]; [vm_compute; now left|].
  specialize (H2 0x20). assert (E : 0x20 = 0x30); [|discriminate E].
  apply H2. vm_compute. now left.
Qed.

(** C2, aliasing: "a" and "b" at 0x100, a buffer of 8 bytes. *)
Lemma stab_nearest_predecessor_witness :
  nearest_returns_cut_name
    32 (table_of [(name_a, 0x100); (name_b, 0x100)]) 0x100 (repeat x00 8) 8 0.
Proof.
  apply (stab_nearest_predecessor 32); [reflexivity | reflexivity | simpl; lia].
Defined.

(** C2 as stated fails for a buffer shorter than the name: with "foo" at
    0x10 and room for three bytes, the string returned is "fo". *)
Lemma stab_nearest_short_buffer :
  ~ nearest_returns_name
      32 (table_of [(name_foo, 0x10)]) 0x10 (repeat x00 3) 3 0.
Proof.
  intros H. destruct H as (st' & buf' & a & n & E & P & C).
  { exists {| ak_addr := 0x10; ak_name := name_foo |}.
    split; [now left | simpl; lia]. }
  vm_compute in E. injection E as _ <- _.
  vm_compute in C. subst n. destruct P as [Pe _].
  vm_compute in Pe. destruct Pe as [Pe|[]]. discriminate Pe.
Qed.

(** C3 at the overwrite test case. *)
Lemma stab_set_get_overwrite_witness :
  roundtrip_overwrite_distinct 32 stab_new name_foo 0x1000 0x2000.
Proof.
  apply (stab_set_get_overwrite 32); reflexivity.
Defined.

(** C3 as stated fails when the two addresses are the same: the entry
    (0x1000, "foo") is still in the address index. *)
Lemma stab_set_overwrite_same_address :
  ~ roundtrip_overwrite 32 stab_new name_foo 0x1000 0x1000.
Proof.
  intros H.
  destruct (H true true (table_of [(name_foo, 0x1000)]) eq_refl) as [_ H2].
  destruct (H2 true true (table_of [(name_foo, 0x1000)]) eq_refl) as [_ H3].
  apply H3. vm_compute. now left.
Qed.

(** C4 at the deletion test case. *)
Lemma stab_del_removes_witness :
  snd (stab_del (table_of [(name_x, 0x10)]) name_x) = 0
  /\ (forall v, stab_get (fst (stab_del (table_of [(name_x, 0x10)]) name_x))
                         name_x v = (-1, v))
  /\ forall q, nearest_entry (fst (stab_del (table_of [(name_x, 0x10)]) name_x)) q
               <> Some {| ak_addr := 0x10; ak_name := name_x |}.
Proof.
  destruct (stab_del_removes 32 (table_of [(name_x, 0x10)]) name_x eq_refl)
    as [_ H].
  destruct H as (R & _ & _ & H); [discriminate|].
  destruct (H _ (conj eq_refl eq_refl)) as [G N].
  destruct (N eq_refl) as (_ & N2 & _).
  split; [exact R|]. split; [exact G|].
  intros q E. now apply (N2 q _ E).
Defined.

(** C4 as stated fails after a failed [stab_set]: on the table left by
    the failed overwrite, [stab_del ("x")] returns 0 and a query at 0x20
    still resolves to "x". *)
Lemma stab_del_keeps_orphan_entry :
  ~ del_clears_name table_after_failed_overwrite name_x.
Proof.
  intros H.
  destruct (H (fst (stab_del table_after_failed_overwrite name_x)) eq_refl)
    as [_ H2].
  apply (H2 0x20 {| ak_addr := 0x20; ak_name := name_x |}); reflexivity.
Qed.

(** C5 at the enumeration test case: c, a, b are inserted and come back
    in the order a, b, c. *)
Lemma stab_enum_visits_witness :
  exists st',
    stab_enum 4 (table_of [(name_c, 0x300); (name_a, 0x100); (name_b, 0x200)])
              collect []
    = Some (st', [(name_a, 0x100); (name_b, 0x200); (name_c, 0x300)], 0).
Proof.
  destruct (stab_enum_visits
              32 _ collect []
              (table_of [(name_c, 0x300); (name_a, 0x100); (name_b, 0x200)]) 4
              eq_refl) as (_ & _ & st' & _ & H).
  - simpl. lia.
  - exists st'. destruct H as [[_ H]|(pre & e & post & _ & _ & F & _)].
    + exact H.
    + simpl in F. lia.
Defined.


(** C7: an overwrite whose insert into the name index fails. *)
Lemma stab_set_put_failure_witness :
  snd (stab_set 32 true false (table_of [(name_x, 0x10)]) name_x 0x20) = -1
  /\ entries table_after_failed_overwrite
     = [{| ak_addr := 0x20; ak_name := name_x |}]
  /\ lookup table_after_failed_overwrite name_x = Some 0x10.
Proof.
  destruct (stab_set_put_failure 32 (table_of [(name_x, 0x10)]) name_x 0x20
                                 true false) as [H _].
  destruct (H (or_intror eq_refl)) as (R & Hs & Ha).
  split; [exact R|]. split.
  - unfold entries, keys, table_after_failed_overwrite. rewrite Ha.
    reflexivity.
  - unfold lookup, btree_get, table_after_failed_overwrite. rewrite Hs.
    reflexivity.
Defined.

(** C7 as stated fails for deletes: on the table left by that failure the
    delete that [stab_del] issues on the address index finds nothing, and
    [stab_del] returns 0. *)
Lemma stab_del_hides_delete_failure :
  ~ del_reports_failure table_after_failed_overwrite name_x.
Proof.
  intros H. apply (H 0x10).
  - reflexivity.
  - right. vm_compute. discriminate.
  - reflexivity.
Qed.

(** C8 below the range: "a" at 0x100, a query at 0xff. *)
Lemma stab_nearest_not_found_witness :
  snd (fst (fst (stab_nearest 32 (table_of [(name_a, 0x100)]) 0xff
                              (repeat x00 8) 8 0))) = -1.
Proof.
  apply (stab_nearest_not_found 32 (table_of [(name_a, 0x100)])
                                0xff (repeat x00 8) 8 0 eq_refl).
  right. intros e [<-|[]]. vm_compute. reflexivity.
Defined.

(** C10 at the round-trip test case. *)
Lemma stab_set_idempotent_witness :
  fst (stab_set 32 true true (table_of [(name_foo, 0x1000)]) name_foo 0x1000)
  = table_of [(name_foo, 0x1000)].
Proof.
  apply (stab_set_idempotent 32 stab_new _ _ true true true true
                             name_foo 0x1000); reflexivity.
Defined.

(** C9 on the empty table: both queries fail and leave 7, the buffer and
    9 where they were. *)
Lemma stab_queries_keep_outputs_witness :
  stab_get stab_new name_foo 7 = (-1, 7)
  /\ snd (fst (stab_nearest 32 stab_new 0x10 (repeat x01 4) 4 9)) = repeat x01 4
  /\ snd (stab_nearest 32 stab_new 0x10 (repeat x01 4) 4 9) = 9.
Proof.
  destruct (stab_queries_keep_outputs 32 stab_new) as [G N].
  split.
  - apply (G name_foo 7). discriminate.
  - apply (N 0x10 (repeat x01 4) 4 9). discriminate.
Defined.

(** * Further properties of the symbol table *)

(** ** Keys and comparison functions *)

Lemma is_nul_iff (b : byte) : is_nul b = true <-> b = x00.
Proof.
  unfold is_nul. rewrite Z.eqb_eq. split.
  - intros H. apply uchar_inj. exact H.
  - intros ->. reflexivity.
Qed.

Lemma nonul_not_In (n : list byte) :
  forallb (fun b => negb (is_nul b)) n = true -> ~ In x00 n.
Proof.
  rewrite forallb_forall. intros H Hin. specialize (H _ Hin).
  now rewrite (proj2 (is_nul_iff x00) eq_refl) in H.
Qed.

Lemma c_str_nonul (t : list byte) :
  forallb (fun b => negb (is_nul b)) (c_str t) = true.
Proof. unfold c_str. now apply firstn_strlen_nonul. Qed.

Lemma key_of_prefix (text : list byte) :
  key_of text = firstn (length (key_of text)) (c_str text).
Proof.
  destruct (key_len_spec text) as (_ & L & _).
  rewrite key_of_unfold at 2. rewrite length_firstn.
  pose proof (strlen_le_length text).
  replace (Nat.min (key_len text) (length text)) with (key_len text) by lia.
  rewrite key_of_unfold. unfold c_str. rewrite firstn_firstn.
  f_equal. lia.
Qed.

Lemma key_of_c_str (text : list byte) :
  Z.of_nat (strlen text) <= INT_MAX -> key_of text = firstn 63 (c_str text).
Proof.
  intros B. rewrite key_of_unfold. unfold c_str. rewrite firstn_firstn.
  destruct (key_len_spec text) as (_ & _ & S & L).
  destruct (Nat.leb_spec NAME_SIZE (strlen text)) as [H|H].
  - rewrite (L H B). unfold NAME_SIZE in H. f_equal. lia.
  - rewrite (S H). unfold NAME_SIZE in H. f_equal. lia.
Qed.

(** X1: [sym_key_compare] and [addr_key_compare] are total orders on the
    keys: the result is 0 for equal keys only, its sign flips when the
    arguments are swapped, and "below" is transitive; [addr_key_compare]
    puts a smaller address first whatever the names are. *)
Theorem key_compare_total_order :
  (forall x y : sym_key, sym_key_compare x y = 0 <-> x = y)
  /\ (forall x y : sym_key, sym_key_compare x y < 0 <-> 0 < sym_key_compare y x)
  /\ (forall x y z : sym_key,
         sym_key_compare x y < 0 -> sym_key_compare y z < 0 ->
         sym_key_compare x z < 0)
  /\ (forall x y : addr_key, addr_key_compare x y = 0 <-> x = y)
  /\ (forall x y : addr_key,
         addr_key_compare x y < 0 <-> 0 < addr_key_compare y x)
  /\ (forall x y z : addr_key,
         addr_key_compare x y < 0 -> addr_key_compare y z < 0 ->
         addr_key_compare x z < 0)
  /\ (forall x y : addr_key, ak_addr x < ak_addr y -> addr_key_compare x y < 0).
Proof.
  repeat split;
    try apply (cmp_eq (cmp := sym_key_compare));
    try apply (cmp_flip (cmp := sym_key_compare));
    try apply (cmp_trans (cmp := sym_key_compare));
    try apply (cmp_eq (cmp := addr_key_compare));
    try apply (cmp_flip (cmp := addr_key_compare));
    try apply (cmp_trans (cmp := addr_key_compare)).
  intros x y H. unfold addr_key_compare.
  destruct (Z.ltb_spec (ak_addr x) (ak_addr y)); lia.
Qed.

(** X2: the probe key of [stab_nearest] for a query address [q] lies
    strictly above the key [addr_key_init] builds for any name at an
    address up to [q], also for a name of 0xff bytes, and strictly below
    every key at a greater address. *)
Theorem nearest_probe_separates (q a : Z) (text : list byte) :
  (addr_key_compare (addr_key_init a text)
                    {| ak_addr := q; ak_name := probe_name |} < 0
   <-> a <= q)
  /\ (0 < addr_key_compare (addr_key_init a text)
                           {| ak_addr := q; ak_name := probe_name |}
      <-> q < a).
Proof.
  rewrite addr_key_init_eq. unfold addr_key_compare. cbn [ak_addr ak_name].
  pose proof (strcmp_below_ff (key_of text) NAME_SIZE (key_of_length text)) as P.
  fold probe_name in P.
  destruct (Z.ltb_spec a q); destruct (Z.gtb_spec a q); lia.
Qed.

(** X3: [sym_key_init] and [addr_key_init] store the same name: the
    first bytes of the string, at most 63 of them and none NUL; building
    a key from the stored name again gives the same key.  For a string
    whose length fits an [int] the stored name is the string cut to its
    first 63 bytes, of min (strlen, 63) bytes. *)
Theorem key_init_truncates (text : list byte) (a : Z) :
  let stored := sym_name (sym_key_init text) in
  ak_name (addr_key_init a text) = stored
  /\ (length stored <= 63)%nat
  /\ stored = firstn (length stored) (c_str text)
  /\ ~ In x00 stored
  /\ sym_key_init stored = sym_key_init text
  /\ addr_key_init a stored = addr_key_init a text
  /\ (Z.of_nat (strlen text) <= INT_MAX ->
      stored = firstn 63 (c_str text)
      /\ length stored = Nat.min (strlen text) 63).
Proof.
  intros stored. subst stored.
  rewrite addr_key_init_eq, sym_key_init_eq. cbn [sym_name ak_name].
  rewrite addr_key_init_eq, sym_key_init_eq, key_of_idem.
  pose proof (key_of_length text) as Hl. unfold NAME_SIZE in Hl.
  repeat split.
  - lia.
  - apply key_of_prefix.
  - apply nonul_not_In, name_ok_nonul, key_of_ok.
  - now apply key_of_c_str.
  - rewrite key_of_c_str, length_firstn by assumption. unfold c_str.
    rewrite length_firstn. pose proof (strlen_le_length text). lia.
Qed.

Section BTreeMore.
Context {K V : Type} (def : btree_def K) {ord : btree_order (compare def)}.

(** Inserting a record with a new key and removing it again changes
    nothing. *)
Lemma items_delete_put (l : list (K * V)) (k : K) (v : V) :
  items_get def l k = None ->
  items_delete def (items_put def l k v) k = l.
Proof.
  induction l as [|[k0 v0] l IH]; simpl.
  - intros _. now rewrite (cmp_eqb_refl def).
  - destruct (compare def k k0 =? 0) eqn:E; [discriminate|]. intros H.
    destruct (compare def k k0 <? 0); simpl.
    + now rewrite (cmp_eqb_refl def).
    + rewrite E. f_equal. now apply IH.
Qed.

(** Inserting adds a record exactly when the key is new. *)
Lemma items_put_length (l : list (K * V)) (k : K) (v : V) :
  sortedb def (map fst l) = true ->
  length (items_put def l k v)
  = match items_get def l k with
    | Some _ => length l
    | None => S (length l)
    end.
Proof.
  induction l as [|[k0 v0] l IH]; [reflexivity|]. intros Hs.
  apply (sorted_cons def) in Hs. destruct Hs as [Hlt Hs]. simpl.
  destruct (Z.ltb_spec (compare def k k0) 0) as [L|L].
  - destruct (Z.eqb_spec (compare def k k0) 0); [lia|].
    rewrite (items_get_above def); [reflexivity|].
    intros k' v' Hin. apply cmp_trans with k0; [exact L | eapply Hlt, Hin].
  - destruct (compare def k k0 =? 0); [reflexivity|]. simpl.
    rewrite IH by exact Hs. now destruct (items_get def l k).
Qed.

(** Removing takes a record away exactly when the key is there. *)
Lemma items_delete_length (l : list (K * V)) (k : K) :
  length (items_delete def l k)
  = match items_get def l k with
    | Some _ => pred (length l)
    | None => length l
    end.
Proof.
  induction l as [|[k0 v0] l IH]; [reflexivity|]. simpl.
  destruct (compare def k k0 =? 0); [reflexivity|]. simpl. rewrite IH.
  destruct (items_get def l k) eqn:G; [|reflexivity].
  destruct l; [discriminate | reflexivity].
Qed.

End BTreeMore.

Section StabFurther.
Variable address_bits : N.

(** X4: two names whose lengths fit an [int] and whose strings agree on
    the first 63 bytes are one symbol: [stab_set], [stab_get] and
    [stab_del] do the same for both. *)
Theorem stab_same_prefix_same_symbol (n1 n2 : list byte) :
  Z.of_nat (strlen n1) <= INT_MAX ->
  Z.of_nat (strlen n2) <= INT_MAX ->
  firstn 63 (c_str n1) = firstn 63 (c_str n2) ->
  forall st,
    (forall v, stab_get st n1 v = stab_get st n2 v)
    /\ (forall alloc_addr alloc_sym value,
           stab_set address_bits alloc_addr alloc_sym st n1 value
           = stab_set address_bits alloc_addr alloc_sym st n2 value)
    /\ stab_del st n1 = stab_del st n2.
Proof.
  intros B1 B2 H st. rewrite <- !key_of_c_str in H by assumption.
  repeat split.
  - intros v. unfold stab_get. now rewrite !sym_key_init_eq, H.
  - intros oa os value. now apply stab_set_same_key.
  - unfold stab_del. rewrite !sym_key_init_eq, H.
    destruct (btree_get sym_table_def (sym st) _); [|reflexivity].
    now rewrite !addr_key_init_eq, H.
Qed.

Lemma sym_key_neq (m n : list byte) :
  m <> n -> {| sym_name := m |} <> {| sym_name := n |}.
Proof. intros H [= E]. contradiction. Qed.

Lemma addr_key_name_neq (a b : Z) (m n : list byte) :
  m <> n ->
  {| ak_addr := a; ak_name := m |} <> {| ak_addr := b; ak_name := n |}.
Proof. intros H [= _ E]. contradiction. Qed.

Lemma same_entries_entry (st st' : stab) (a : Z) (n : list byte) :
  items (addr st') = items (addr st) -> (entry st' a n <-> entry st a n).
Proof. intros E. unfold entry, entries, keys. now rewrite E. Qed.

(** X5: [stab_set] of a name leaves what [stab_get] returns for every
    name with another key as it was, whether it succeeds or fails; a
    [stab_set] that fails leaves it as it was for every name. *)
Theorem stab_set_get_frame (alloc_addr alloc_sym : bool) (st : stab)
        (name other : list byte) (value : Z) :
  key_of other <> key_of name \/ alloc_addr && alloc_sym = false ->
  forall v,
    stab_get (fst (stab_set address_bits alloc_addr alloc_sym st name value))
             other v
    = stab_get st other v.
Proof.
  intros H v.
  destruct (stab_set_spec address_bits alloc_addr alloc_sym st name value)
    as (_ & Es & _).
  unfold stab_get, btree_get. rewrite sym_key_init_eq, Es.
  destruct (alloc_addr && alloc_sym); [|reflexivity].
  destruct H as [H|H]; [|discriminate].
  rewrite (items_get_put sym_table_def).
  now rewrite (cmp_eqb_neq sym_table_def _ _ (sym_key_neq _ _ H)).
Qed.

(** X6: on a well-formed table, [stab_set] of a name neither adds nor
    removes an address entry of another name, whether it succeeds or
    fails. *)
Theorem stab_set_entry_frame (alloc_addr alloc_sym : bool) (st : stab)
        (name other : list byte) (value a : Z) :
  stab_wf address_bits st = true ->
  other <> key_of name ->
  (entry (fst (stab_set address_bits alloc_addr alloc_sym st name value))
         a other
   <-> entry st a other).
Proof.
  intros W H.
  pose proof (stab_set_wf address_bits alloc_addr alloc_sym st name value W)
    as W'.
  apply stab_wf_iff in W, W'.
  destruct W as (_ & S2 & _). destruct W' as (_ & S2' & _).
  rewrite (entry_get _ a other S2'), (entry_get st a other S2).
  destruct (stab_set_spec address_bits alloc_addr alloc_sym st name value)
    as (Ea & _).
  rewrite Ea.
  assert (G : items_get addr_table_def (without_old_entry st name)
                        {| ak_addr := a; ak_name := other |}
              = items_get addr_table_def (items (addr st))
                          {| ak_addr := a; ak_name := other |}).
  { rewrite without_old_get by exact S2.
    destruct (lookup st (key_of name)) as [o|]; [|reflexivity].
    now rewrite (cmp_eqb_neq addr_table_def _ _
                             (addr_key_name_neq a o _ _ H)). }
  destruct alloc_addr; [|now rewrite G].
  rewrite (items_get_put addr_table_def).
  rewrite (cmp_eqb_neq addr_table_def _ _
                       (addr_key_name_neq a (to_address address_bits value)
                                          _ _ H)).
  now rewrite G.
Qed.

(** X7: [stab_del] of a name that is not in the name index returns -1 and
    leaves the table as it is; on a well-formed table [stab_del] leaves
    what [stab_get] returns for names with another key, and the address
    entries of other names, as they were. *)
Theorem stab_del_frame (st : stab) (name : list byte) :
  stab_wf address_bits st = true ->
  (lookup st (key_of name) = None -> stab_del st name = (st, -1))
  /\ (forall other v,
         key_of other <> key_of name ->
         stab_get (fst (stab_del st name)) other v = stab_get st other v)
  /\ (forall other a,
         other <> key_of name ->
         (entry (fst (stab_del st name)) a other <-> entry st a other)).
Proof.
  intros W. pose proof (stab_del_wf address_bits st name W) as W'.
  apply stab_wf_iff in W, W'.
  destruct W as (S1 & S2 & _). destruct W' as (_ & S2' & _).
  pose proof (stab_del_spec st name) as D.
  destruct (lookup st (key_of name)) as [a0|] eqn:L.
  - destruct D as (_ & Es & Ea). split; [discriminate|]. split.
    + intros other v H. unfold stab_get, btree_get.
      rewrite sym_key_init_eq, Es, (items_get_delete sym_table_def) by exact S1.
      now rewrite (cmp_eqb_neq sym_table_def _ _ (sym_key_neq _ _ H)).
    + intros other a H.
      rewrite (entry_get _ a other S2'), (entry_get st a other S2), Ea.
      rewrite (items_get_delete addr_table_def) by exact S2.
      now rewrite (cmp_eqb_neq addr_table_def _ _
                               (addr_key_name_neq a a0 _ _ H)).
  - split; [intros _; exact D|]. rewrite D. now split.
Qed.

Lemma wf_agree (st : stab) :
  stab_wf address_bits st = true -> stab_consistent st = true ->
  forall n a,
    lookup st n = Some a <->
    items_get addr_table_def (items (addr st))
              {| ak_addr := a; ak_name := n |} = Some tt.
Proof.
  intros W C. apply stab_wf_iff in W. destruct W as (S1 & S2 & _).
  exact (proj1 (stab_consistent_iff st S1 S2) C).
Qed.

(** X8: on a well-formed table whose indexes hold the same symbols, a
    successful [stab_set] of a name that was not there followed by
    [stab_del] of the name gives back the records of both indexes. *)
Theorem stab_set_del_restores (alloc_addr alloc_sym : bool) (st st1 : stab)
        (name : list byte) (value : Z) :
  stab_wf address_bits st = true ->
  stab_consistent st = true ->
  lookup st (key_of name) = None ->
  stab_set address_bits alloc_addr alloc_sym st name value = (st1, 0) ->
  snd (stab_del st1 name) = 0
  /\ same_records st (fst (stab_del st1 name)).
Proof.
  intros W C L E.
  destruct (stab_get_after_set _ _ _ _ _ _ _ E) as [L1 _].
  destruct (stab_set_success _ _ _ _ _ _ _ E) as [-> ->].
  destruct (stab_set_spec address_bits true true st name value)
    as (Ea & Es & _).
  rewrite E in Ea, Es. cbn [andb fst] in Ea, Es.
  unfold without_old_entry in Ea. rewrite L in Ea.
  pose proof (stab_del_spec st1 name) as D. rewrite L1 in D.
  destruct D as (R & Ds & Da). split; [exact R|]. split.
  - rewrite Ds, Es. now apply (items_delete_put sym_table_def).
  - rewrite Da, Ea. apply (items_delete_put addr_table_def).
    destruct (items_get addr_table_def (items (addr st)) _) as [[]|] eqn:G;
      [|reflexivity].
    apply (wf_agree st W C) in G. congruence.
Qed.

(** X9: on a well-formed table whose indexes hold the same symbols,
    [stab_del] of a stored name followed by a successful [stab_set] of the
    name to the address it had gives back the records of both indexes. *)
Theorem stab_del_set_restores (alloc_addr alloc_sym : bool) (st st2 : stab)
        (name : list byte) (a : Z) :
  stab_wf address_bits st = true ->
  stab_consistent st = true ->
  lookup st (key_of name) = Some a ->
  stab_set address_bits alloc_addr alloc_sym (fst (stab_del st name)) name a
  = (st2, 0) ->
  same_records st st2.
Proof.
  intros W C L E.
  pose proof (wf_agree st W C) as A.
  pose proof W as Wp. apply stab_wf_iff in Wp.
  destruct Wp as (S1 & S2 & B1 & _).
  assert (Ia : to_address address_bits a = a).
  { apply to_address_id. apply (items_get_In sym_table_def) in L.
    now apply B1 in L. }
  destruct (stab_set_success _ _ _ _ _ _ _ E) as [-> ->].
  pose proof (stab_del_spec st name) as D. rewrite L in D.
  destruct D as (_ & Ds & Da).
  assert (L1 : lookup (fst (stab_del st name)) (key_of name) = None).
  { unfold lookup, btree_get.
    rewrite Ds, (items_get_delete sym_table_def) by exact S1.
    now rewrite (cmp_eqb_refl sym_table_def). }
  destruct (stab_set_spec address_bits true true (fst (stab_del st name))
                          name a) as (Ea & Es & _).
  rewrite E in Ea, Es. cbn [andb fst] in Ea, Es.
  unfold without_old_entry in Ea. rewrite L1, Da, Ia in Ea.
  rewrite Ds, Ia in Es. split.
  - rewrite Es. now apply (items_put_delete sym_table_def).
  - rewrite Ea. apply (items_put_delete addr_table_def); [exact S2|].
    now apply A.
Qed.

(** X10: after a successful [stab_set] of a name to a value on a
    well-formed table, [stab_nearest] at that address returns 0 with
    offset 0, whatever buffer it is given; the name it copies is that of
    an entry at the address, the last of the names stored there and so
    not below the name set, and with [1 <= max_len] and a buffer of at
    least [max_len] bytes the string it leaves is that name cut to
    [max_len - 1] bytes. *)
Theorem stab_set_nearest_exact (alloc_addr alloc_sym : bool) (st st1 : stab)
        (name : list byte) (value : Z) :
  stab_wf address_bits st = true ->
  stab_set address_bits alloc_addr alloc_sym st name value = (st1, 0) ->
  let a := to_address address_bits value in
  forall ret_name max_len ret_offset,
  exists st' ret_name' n,
    stab_nearest address_bits st1 a ret_name max_len ret_offset
    = (st', 0, ret_name', 0)
    /\ entry st1 a n
    /\ strcmp (key_of name) n <= 0
    /\ (forall n', entry st1 a n' -> strcmp n' n <= 0)
    /\ (1 <= max_len <= Z.of_nat (length ret_name) ->
        c_str ret_name' = firstn (Z.to_nat (max_len - 1)) n).
Proof.
  intros W E a ret_name max_len ret_offset. subst a.
  destruct (stab_set_success _ _ _ _ _ _ _ E) as [-> ->].
  pose proof (stab_set_wf address_bits true true st name value W) as W1.
  rewrite E in W1. cbn [fst] in W1.
  pose proof W1 as Wp. apply stab_wf_iff in Wp. destruct Wp as (_ & S2 & _).
  destruct (stab_set_spec address_bits true true st name value) as (Ea & _).
  rewrite E in Ea. cbn [fst] in Ea.
  assert (He : entry st1 (to_address address_bits value) (key_of name)).
  { apply (entry_get st1 _ _ S2).
    rewrite Ea, (items_get_put addr_table_def).
    now rewrite (cmp_eqb_refl addr_table_def). }
  destruct (nearest_entry st1 (to_address address_bits value)) as [e|] eqn:N.
  2:{ pose proof (proj1 (nearest_entry_None address_bits st1 _ W1) N _ He) as F.
      simpl in F. lia. }
  destruct (nearest_entry_Some address_bits st1 _ e W1 N) as (P1 & P2 & P3 & P4).
  pose proof (P3 _ He (Z.le_refl _)) as P5. cbn [ak_addr] in P5.
  assert (Eq : ak_addr e = to_address address_bits value) by lia.
  assert (Hin : In e (entries st1)) by now destruct e.
  destruct (wf_entry_ok address_bits st1 e W1 Hin) as [Hok _].
  pose proof (stab_nearest_unfold address_bits st1
                (to_address address_bits value) ret_name max_len ret_offset)
    as U.
  cbv zeta in U. rewrite N in U.
  destruct (stab_nearest address_bits st1 (to_address address_bits value)
                         ret_name max_len ret_offset) as [[[s r] b] o].
  cbn [fst snd] in U. destruct U as (-> & -> & ->).
  exists s, (store (strncpy ret_name (ak_name e) (Z.to_nat max_len))
                   (max_len - 1) x00), (ak_name e).
  rewrite Eq in P1, P4 |- *. repeat split.
  - do 2 f_equal. rewrite Z.sub_diag. unfold to_address.
    apply Z.mod_0_l. pose proof (two_power_pos address_bits). lia.
  - exact P1.
  - now apply P4.
  - exact P4.
  - intros M. apply ret_name_c_str; [now apply name_ok_nonul | exact M].
Qed.

(** X11: on a well-formed table whose indexes hold the same symbols, when
    [stab_nearest] of an address [q] returns 0 into a buffer of at least
    64 bytes, [stab_get] of the name it returned succeeds, and the address
    it gives plus the offset is [q]. *)
Theorem stab_nearest_get_roundtrip (st st' : stab) (q : Z)
        (ret_name ret_name' : list byte) (max_len ret_offset ret_offset' : Z) :
  stab_wf address_bits st = true ->
  stab_consistent st = true ->
  is_address address_bits q = true ->
  Z.of_nat NAME_SIZE <= max_len <= Z.of_nat (length ret_name) ->
  stab_nearest address_bits st q ret_name max_len ret_offset
  = (st', 0, ret_name', ret_offset') ->
  0 <= ret_offset' <= q
  /\ forall v, stab_get st' (c_str ret_name') v = (0, q - ret_offset').
Proof.
  intros W C Q M E.
  pose proof (stab_nearest_unfold address_bits st q ret_name max_len ret_offset)
    as U.
  pose proof (stab_nearest_same_records address_bits st q ret_name max_len
                                        ret_offset) as SR.
  rewrite E in U, SR. cbn [fst snd] in U, SR.
  destruct (nearest_entry st q) as [e|] eqn:N; [|destruct U as (U & _); lia].
  destruct U as (_ & -> & ->).
  destruct (nearest_entry_Some address_bits st q e W N) as (P1 & P2 & _).
  assert (He : In e (entries st)) by now destruct e.
  destruct (wf_entry_ok address_bits st e W He) as [Hok Ha].
  pose proof (name_ok_length _ Hok) as Hl. unfold NAME_SIZE in *.
  rewrite ret_name_c_str; [|now apply name_ok_nonul|lia].
  rewrite firstn_all2 by lia.
  assert (Off : to_address address_bits (q - ak_addr e) = q - ak_addr e).
  { apply to_address_id. unfold is_address in *.
    rewrite andb_true_iff, Z.leb_le, Z.ltb_lt in *. lia. }
  rewrite Off. unfold is_address in Ha.
  rewrite andb_true_iff, Z.leb_le, Z.ltb_lt in Ha.
  split; [lia|]. intros v.
  pose proof W as Wp. apply stab_wf_iff in Wp. destruct Wp as (_ & S2 & _).
  apply (entry_get st _ _ S2), (wf_agree st W C) in P1.
  unfold stab_get. rewrite sym_key_init_eq, (key_of_fixed _ Hok).
  destruct SR as [SRs _]. unfold lookup, btree_get in P1 |- *.
  rewrite SRs, P1. f_equal. lia.
Qed.

Lemma strlen_app_nul_le (p r : list byte) :
  (strlen (p ++ x00 :: r) <= length p)%nat.
Proof.
  induction p as [|b p IH]; simpl; [lia|]. destruct (is_nul b); lia.
Qed.

(** What [strncpy] and the store of the terminator leave in a buffer of at
    least [max_len] bytes. *)
Lemma copy_out_shape (buf n : list byte) (max_len : Z) :
  1 <= max_len <= Z.of_nat (length buf) ->
  store (strncpy buf n (Z.to_nat max_len)) (max_len - 1) x00
  = firstn (Z.to_nat max_len - 1) (n ++ repeat x00 (Z.to_nat max_len))
    ++ x00 :: skipn (Z.to_nat max_len) buf.
Proof.
  intros Hm. remember (Z.to_nat max_len) as m eqn:Em.
  assert (M1 : (1 <= m <= length buf)%nat) by lia.
  assert (L1 : length (firstn m (n ++ repeat x00 m)) = m).
  { rewrite length_firstn, length_app, repeat_length. lia. }
  assert (L : length (strncpy buf n m) = length buf).
  { unfold strncpy. rewrite length_app, L1, length_skipn. lia. }
  unfold store. rewrite L.
  replace ((0 <=? max_len - 1) && (max_len - 1 <? Z.of_nat (length buf)))
    with true
    by (symmetry; apply andb_true_iff; split;
        [apply Z.leb_le | apply Z.ltb_lt]; lia).
  replace (Z.to_nat (max_len - 1)) with (m - 1)%nat by lia.
  replace (S (m - 1)) with m by lia.
  unfold strncpy. f_equal.
  - rewrite firstn_app, L1, firstn_firstn.
    replace (m - 1 - m)%nat with O by lia.
    replace (Nat.min (m - 1) m) with (m - 1)%nat by lia.
    now rewrite firstn_O, app_nil_r.
  - f_equal. rewrite skipn_app, L1, Nat.sub_diag.
    rewrite (skipn_all2 (firstn m _)) by lia. reflexivity.
Qed.

(** X12: with [1 <= max_len] and a buffer of at least [max_len] bytes,
    [stab_nearest] keeps the size of the buffer and every byte from index
    [max_len] on, whatever it returns; when it returns 0 the byte at
    [max_len - 1] is NUL, so the string in the buffer has fewer than
    [max_len] bytes. *)
Theorem stab_nearest_buffer_bounds (st : stab) (q : Z) (ret_name : list byte)
        (max_len ret_offset : Z) :
  1 <= max_len <= Z.of_nat (length ret_name) ->
  let out := stab_nearest address_bits st q ret_name max_len ret_offset in
  let ret_name' := snd (fst out) in
  length ret_name' = length ret_name
  /\ skipn (Z.to_nat max_len) ret_name' = skipn (Z.to_nat max_len) ret_name
  /\ (snd (fst (fst out)) = 0 ->
      nth_error ret_name' (Z.to_nat max_len - 1) = Some x00
      /\ (strlen ret_name' < Z.to_nat max_len)%nat).
Proof.
  intros M out buf'. subst buf' out.
  pose proof (stab_nearest_unfold address_bits st q ret_name max_len ret_offset)
    as U.
  cbv zeta in U. destruct (nearest_entry st q) as [e|].
  2:{ destruct U as (-> & -> & _). repeat split; discriminate. }
  destruct U as (_ & -> & _). rewrite copy_out_shape by exact M.
  remember (Z.to_nat max_len) as m eqn:Em.
  assert (M1 : (1 <= m <= length ret_name)%nat) by lia.
  assert (L1 : length (firstn (m - 1) (ak_name e ++ repeat x00 m))
               = (m - 1)%nat).
  { rewrite length_firstn, length_app, repeat_length. lia. }
  repeat split.
  - rewrite length_app, L1. simpl. rewrite length_skipn. lia.
  - rewrite skipn_app, L1. rewrite (skipn_all2 (firstn (m - 1) _)) by lia.
    replace (m - (m - 1))%nat with 1%nat by lia. reflexivity.
  - rewrite nth_error_app2 by lia. rewrite L1, Nat.sub_diag. reflexivity.
  - pose proof (strlen_app_nul_le
                  (firstn (m - 1) (ak_name e ++ repeat x00 m))
                  (skipn m ret_name)). lia.
Qed.

Lemma sorted_NoDup (l : list addr_key) :
  sortedb addr_table_def l = true -> NoDup l.
Proof.
  induction l as [|x l IH]; simpl; [constructor|].
  rewrite andb_true_iff, forallb_forall. intros [Hlt Hs].
  constructor; [|now apply IH]. intros Hin.
  apply Hlt, Z.ltb_lt in Hin. rewrite (cmp_refl addr_table_def) in Hin. lia.
Qed.

(** X13: in every table the public functions produce, also after failed
    calls, each stored name has at most 63 bytes and no NUL byte, each
    stored address fits [address_t], and no pair (address, name) occurs
    twice in the address index. *)
Theorem stab_reachable_keys (st : stab) :
  stab_reachable address_bits st ->
  (forall e, In e (entries st) ->
             (length (ak_name e) <= 63)%nat /\ ~ In x00 (ak_name e)
             /\ 0 <= ak_addr e < 2 ^ Z.of_N address_bits)
  /\ (forall n a, lookup st n = Some a ->
                  (length n <= 63)%nat /\ ~ In x00 n
                  /\ 0 <= a < 2 ^ Z.of_N address_bits)
  /\ NoDup (entries st).
Proof.
  intros R. pose proof (stab_reachable_wf address_bits st R) as W.
  pose proof W as Wp. apply stab_wf_iff in Wp.
  destruct Wp as (_ & S2 & B1 & _).
  assert (F : forall n a, name_ok n = true ->
                          is_address address_bits a = true ->
                          (length n <= 63)%nat /\ ~ In x00 n
                          /\ 0 <= a < 2 ^ Z.of_N address_bits).
  { intros n a Hn Ha. pose proof (name_ok_length _ Hn) as Hl.
    unfold NAME_SIZE in Hl. unfold is_address in Ha.
    rewrite andb_true_iff, Z.leb_le, Z.ltb_lt in Ha.
    repeat split; try lia. now apply nonul_not_In, name_ok_nonul. }
  split; [|split].
  - intros e He. destruct (wf_entry_ok address_bits st e W He). now apply F.
  - intros n a L. apply (items_get_In sym_table_def), B1 in L.
    destruct L. now apply F.
  - now apply sorted_NoDup.
Qed.

Lemma strcmp_le_antisym (x y : list byte) :
  strcmp x y <= 0 -> strcmp y x <= 0 -> x = y.
Proof.
  intros H1 H2. apply strcmp_eq.
  destruct (Z.eq_dec (strcmp x y) 0) as [E|E]; [exact E|].
  assert (L : strcmp x y < 0) by lia. apply strcmp_flip in L. lia.
Qed.

(** The record the seek of [stab_nearest] gets is the same for every query
    address between its address and the query, and is at no lower address
    for a query above. *)
Lemma nearest_entry_range (st : stab) (q : Z) (e : addr_key) :
  stab_wf address_bits st = true ->
  nearest_entry st q = Some e ->
  (forall q', ak_addr e <= q' <= q -> nearest_entry st q' = Some e)
  /\ (forall q', q <= q' ->
                 exists e', nearest_entry st q' = Some e'
                            /\ ak_addr e <= ak_addr e' <= q').
Proof.
  intros W N.
  destruct (nearest_entry_Some address_bits st q e W N) as (P1 & P2 & P3 & P4).
  assert (He : In e (entries st)) by now destruct e.
  assert (Ex : forall q', ak_addr e <= q' ->
                          exists e', nearest_entry st q' = Some e').
  { intros q' Hq. destruct (nearest_entry st q') as [e'|] eqn:N';
      [now exists e'|].
    pose proof (proj1 (nearest_entry_None address_bits st q' W) N' e He). lia. }
  split.
  - intros q' Hq. destruct (Ex q' (proj1 Hq)) as [e' N']. rewrite N'. f_equal.
    destruct (nearest_entry_Some address_bits st q' e' W N')
      as (Q1 & Q2 & Q3 & Q4).
    assert (He' : In e' (entries st)) by now destruct e'.
    assert (Ea : ak_addr e' = ak_addr e).
    { pose proof (Q3 e He (proj1 Hq)). pose proof (P3 e' He'). lia. }
    destruct e as [a n], e' as [a' n']. cbn [ak_addr ak_name] in *. subst a'.
    f_equal. apply strcmp_le_antisym; [now apply P4 | now apply Q4].
  - intros q' Hq. destruct (Ex q') as [e' N']; [lia|]. exists e'.
    split; [exact N'|].
    destruct (nearest_entry_Some address_bits st q' e' W N')
      as (_ & Q2 & Q3 & _).
    split; [|exact Q2]. apply (Q3 e He). lia.
Qed.

(** X14: on a well-formed table, when [stab_nearest] of an address [q]
    returns 0 with offset [off], a later [stab_nearest] of an address from
    [q - off] to [q] with the same buffer and [max_len] returns 0, leaves
    the same bytes in the buffer and gives the offset from [q - off]; and
    a later [stab_nearest] of an address above [q] returns 0 and resolves
    to an address that is not below [q - off]. *)
Theorem stab_nearest_range (st st' : stab) (q : Z)
        (ret_name ret_name' : list byte) (max_len ret_offset ret_offset' : Z) :
  stab_wf address_bits st = true ->
  is_address address_bits q = true ->
  stab_nearest address_bits st q ret_name max_len ret_offset
  = (st', 0, ret_name', ret_offset') ->
  (forall q' off,
      q - ret_offset' <= q' <= q ->
      exists st'',
        stab_nearest address_bits st' q' ret_name max_len off
        = (st'', 0, ret_name', q' - (q - ret_offset')))
  /\ (forall q' buf len off,
         q <= q' -> is_address address_bits q' = true ->
         exists st'' buf' off',
           stab_nearest address_bits st' q' buf len off = (st'', 0, buf', off')
           /\ 0 <= off' /\ q - ret_offset' <= q' - off').
Proof.
  intros W Q E.
  pose proof (stab_nearest_unfold address_bits st q ret_name max_len ret_offset)
    as U.
  pose proof (stab_nearest_same_records address_bits st q ret_name max_len
                                        ret_offset) as SR.
  rewrite E in U, SR. cbn [fst snd] in U, SR.
  destruct (nearest_entry st q) as [e|] eqn:N; [|destruct U as (U & _); lia].
  destruct U as (_ & -> & ->).
  destruct (nearest_entry_Some address_bits st q e W N) as (P1 & P2 & _).
  assert (He : In e (entries st)) by now destruct e.
  destruct (wf_entry_ok address_bits st e W He) as [_ Ha].
  destruct (nearest_entry_range st q e W N) as [R1 R2].
  unfold is_address in Q, Ha.
  rewrite andb_true_iff, Z.leb_le, Z.ltb_lt in Q, Ha.
  assert (Off : forall q', ak_addr e <= q' < 2 ^ Z.of_N address_bits ->
                           to_address address_bits (q' - ak_addr e)
                           = q' - ak_addr e).
  { intros q' Hq. apply to_address_id. unfold is_address.
    rewrite andb_true_iff, Z.leb_le, Z.ltb_lt. lia. }
  rewrite (Off q) by lia. split.
  - intros q' off Hq.
    assert (N' : nearest_entry st' q' = Some e).
    { rewrite (nearest_entry_same st st' q' SR). apply R1. lia. }
    pose proof (stab_nearest_unfold address_bits st' q' ret_name max_len off)
      as U.
    cbv zeta in U. rewrite N' in U.
    destruct (stab_nearest address_bits st' q' ret_name max_len off)
      as [[[s r] b] o].
    cbn [fst snd] in U. destruct U as (-> & -> & ->).
    exists s. rewrite (Off q') by lia. do 2 f_equal. lia.
  - intros q' buf len off Hq Q'.
    unfold is_address in Q'. rewrite andb_true_iff, Z.leb_le, Z.ltb_lt in Q'.
    destruct (R2 q' Hq) as (e' & N' & Hle).
    rewrite <- (nearest_entry_same st st' q' SR) in N'.
    pose proof (stab_nearest_unfold address_bits st' q' buf len off) as U.
    cbv zeta in U. rewrite N' in U.
    destruct (stab_nearest address_bits st' q' buf len off) as [[[s r] b] o].
    cbn [fst snd] in U. destruct U as (-> & -> & ->).
    exists s, (store (strncpy buf (ak_name e') (Z.to_nat len)) (len - 1) x00),
           (to_address address_bits (q' - ak_addr e')).
    split; [reflexivity|].
    assert (I' : is_address address_bits (q' - ak_addr e') = true).
    { unfold is_address. rewrite andb_true_iff, Z.leb_le, Z.ltb_lt. lia. }
    rewrite (to_address_id address_bits _ I'). lia.
Qed.

(** X17: on a well-formed table whose indexes hold the same symbols, a
    successful [stab_set] adds one record to each index when the name is
    new and leaves both counts as they are when it overwrites; a
    successful [stab_del] takes one record from each index. *)
Theorem stab_record_count (st : stab) (name : list byte) :
  stab_wf address_bits st = true ->
  stab_consistent st = true ->
  let grown := match lookup st (key_of name) with
               | Some _ => O
               | None => 1%nat
               end in
  (forall alloc_addr alloc_sym value st1,
      stab_set address_bits alloc_addr alloc_sym st name value = (st1, 0) ->
      length (items (sym st1)) = (length (items (sym st)) + grown)%nat
      /\ length (entries st1) = (length (entries st) + grown)%nat)
  /\ (snd (stab_del st name) = 0 ->
      S (length (items (sym (fst (stab_del st name)))))
      = length (items (sym st))
      /\ S (length (entries (fst (stab_del st name)))) = length (entries st)).
Proof.
  intros W C grown. subst grown.
  pose proof (wf_agree st W C) as A.
  pose proof W as Wp. apply stab_wf_iff in Wp. destruct Wp as (S1 & S2 & _).
  unfold entries, keys. rewrite !length_map. split.
  - intros oa os value st1 E.
    destruct (stab_set_success _ _ _ _ _ _ _ E) as [-> ->].
    destruct (stab_set_spec address_bits true true st name value)
      as (Ea & Es & _).
    rewrite E in Ea, Es. cbn [andb fst] in Ea, Es.
    unfold entries, keys. rewrite !length_map, Ea, Es.
    rewrite (items_put_length sym_table_def) by exact S1.
    rewrite (items_put_length addr_table_def)
      by now apply without_old_sorted.
    rewrite without_old_get by exact S2.
    unfold without_old_entry, lookup, btree_get in *.
    destruct (items_get sym_table_def (items (sym st)) _) as [o|] eqn:L.
    + rewrite (items_delete_length addr_table_def).
      rewrite (proj1 (A _ _) L).
      destruct (cmp_eqb_cases addr_table_def
                  {| ak_addr := to_address address_bits value;
                     ak_name := key_of name |}
                  {| ak_addr := o; ak_name := key_of name |})
        as [[Hx X]|[Hx X]]; rewrite X.
      * assert (Hl : length (items (addr st)) <> O).
        { pose proof (items_get_In addr_table_def _ _ _ (proj1 (A _ _) L)).
          destruct (items (addr st)); [contradiction | discriminate]. }
        split; lia.
      * destruct (items_get addr_table_def (items (addr st)) _) as [[]|] eqn:G.
        -- apply A in G. unfold lookup, btree_get in G. congruence.
        -- assert (Hl : length (items (addr st)) <> O).
           { pose proof (items_get_In addr_table_def _ _ _ (proj1 (A _ _) L)).
             destruct (items (addr st)); [contradiction | discriminate]. }
           split; lia.
    + destruct (items_get addr_table_def (items (addr st)) _) as [[]|] eqn:G.
      * apply A in G. unfold lookup, btree_get in G. congruence.
      * split; lia.
  - intros R. pose proof (stab_del_spec st name) as D.
    destruct (lookup st (key_of name)) as [a|] eqn:L;
      [|rewrite D in R; discriminate].
    destruct D as (_ & Ds & Da). rewrite Ds, Da.
    rewrite (items_delete_length sym_table_def),
      (items_delete_length addr_table_def).
    pose proof L as L'. unfold lookup, btree_get in L'. rewrite L'.
    rewrite (proj1 (A _ _) L).
    pose proof (items_get_In sym_table_def _ _ _ L') as I1.
    pose proof (items_get_In addr_table_def _ _ _ (proj1 (A _ _) L)) as I2.
    destruct (items (sym st)); [contradiction|].
    destruct (items (addr st)); [contradiction|]. now split.
Qed.

Lemma consistent_same_count (st : stab) :
  stab_wf address_bits st = true -> stab_consistent st = true ->
  length (entries st) = length (items (sym st)).
Proof.
  intros W C. pose proof (wf_agree st W C) as A.
  pose proof W as Wp. apply stab_wf_iff in Wp. destruct Wp as (S1 & S2 & _).
  set (f := fun kv : sym_key * Z =>
              {| ak_addr := snd kv; ak_name := sym_name (fst kv) |}).
  set (g := fun e : addr_key => {| sym_name := ak_name e |}).
  assert (N1 : NoDup (map f (items (sym st)))).
  { apply (NoDup_map_inv g). rewrite map_map.
    assert (Q : map (fun x => g (f x)) (items (sym st))
                = map fst (items (sym st)))
      by (apply map_ext; intros [[n] a]; reflexivity).
    rewrite Q. clear -S1.
    induction (map fst (items (sym st))) as [|x l IH]; [constructor|].
    simpl in S1. rewrite andb_true_iff, forallb_forall in S1.
    destruct S1 as [Hlt Hs]. constructor; [|now apply IH].
    intros Hin. apply Hlt, Z.ltb_lt in Hin.
    rewrite (cmp_refl sym_table_def) in Hin. lia. }
  assert (N2 : NoDup (entries st)) by now apply sorted_NoDup.
  rewrite <- (length_map f (items (sym st))).
  apply Nat.le_antisymm; apply NoDup_incl_length; try assumption.
  - intros [a n] He. apply (entry_get st a n S2), A in He.
    apply (items_get_In sym_table_def) in He.
    apply in_map_iff. now exists ({| sym_name := n |}, a).
  - intros e He. apply in_map_iff in He. destruct He as [[[n] a] [<- Hin]].
    apply (In_items_get sym_table_def) in Hin; [|exact S1].
    apply (entry_get st a n S2), A. exact Hin.
Qed.

(** X18: in every table the public functions produce from a new or a
    cleared table while no [stab_set] fails, the two indexes hold the same
    number of records. *)
Theorem stab_history_same_count (st : stab) :
  stab_history address_bits st ->
  length (entries st) = length (items (sym st)).
Proof.
  intros H. destruct (stab_history_inv address_bits st H) as [W C].
  now apply consistent_same_count.
Qed.

End StabFurther.

(** * Properties of option parsing *)

Section OptionFacts.
Variable string_size : nat.
Variable expr_eval : list byte -> Z * option Z.

Lemma is_nul_false_uchar (c : byte) : is_nul c = false -> uchar c <> 0.
Proof. unfold is_nul. now rewrite Z.eqb_neq. Qed.

Lemma is_nul_true_uchar (c : byte) : is_nul c = true -> uchar c = 0.
Proof. unfold is_nul. now rewrite Z.eqb_eq. Qed.

Lemma strlen_c_str_length (w : list byte) : length (c_str w) = strlen w.
Proof.
  unfold c_str. rewrite length_firstn. pose proof (strlen_le_length w). lia.
Qed.

(** A read up to the terminator gives the byte of the string, or NUL at
    its end. *)
Lemma char_at_c_str (w : list byte) (i : nat) :
  (i <= strlen w)%nat -> char_at w i = Some (nth i (c_str w) x00).
Proof.
  intros H. unfold char_at.
  destruct (Nat.ltb_spec i (strlen w)) as [L|L].
  - unfold c_str. rewrite nth_firstn.
    destruct (Nat.ltb_spec i (strlen w)); [|lia].
    apply nth_error_nth'. pose proof (strlen_le_length w). lia.
  - replace i with (strlen w) by lia. rewrite Nat.eqb_refl.
    rewrite nth_overflow; [reflexivity|]. rewrite strlen_c_str_length. lia.
Qed.

Lemma char_at_prefix (w w' : list byte) (i : nat) :
  firstn 2 (c_str w') = firstn 2 (c_str w) ->
  (i < 2)%nat -> (i <= strlen w)%nat -> (i <= strlen w')%nat ->
  char_at w' i = char_at w i.
Proof.
  intros H I L L'. rewrite !char_at_c_str by assumption. f_equal.
  pose proof (nth_firstn 2%nat (c_str w) i x00) as A.
  pose proof (nth_firstn 2%nat (c_str w') i x00) as B.
  destruct (Nat.ltb_spec i 2); [|lia]. rewrite <- A, <- B. now rewrite H.
Qed.

(** The boolean branch reads [word[0]], and [word[1]] when [word[0]] is
    'o'. *)
Lemma parse_option_boolean_chars (value value' : opdb_value)
      (w w' : list byte) :
  char_at w' 0 = char_at w 0 ->
  (char_at w 0 = Some x6f -> char_at w' 1 = char_at w 1) ->
  parse_option string_size expr_eval OPDB_TYPE_BOOLEAN value' w'
  = parse_option string_size expr_eval OPDB_TYPE_BOOLEAN value w.
Proof.
  intros H0 H1. unfold parse_option. rewrite H0.
  destruct (char_at w 0) as [c0|]; [|reflexivity].
  destruct (isdigit c0 && (uchar c0 >? uchar x30)); [reflexivity|].
  destruct (uchar c0 =? uchar x74); [reflexivity|].
  destruct (uchar c0 =? uchar x79); [reflexivity|].
  destruct (Z.eqb_spec (uchar c0) (uchar x6f)) as [E|E]; [|reflexivity].
  apply uchar_inj in E. subst c0. now rewrite H1.
Qed.

Lemma parse_option_boolean_value (value : opdb_value) (word : list byte) :
  exists b,
    parse_option string_size expr_eval OPDB_TYPE_BOOLEAN value word
    = Some (0, OV_numeric b)
    /\ (b = 0 \/ b = 1)
    /\ (c_str word = [] -> b = 0).
Proof.
  unfold parse_option. rewrite (char_at_c_str word 0) by lia.
  destruct (c_str word) as [|c rest] eqn:S; cbn [nth].
  - exists 0. now repeat split; auto.
  - assert (L : (1 <= strlen word)%nat)
      by (rewrite <- strlen_c_str_length, S; simpl; lia).
    rewrite (char_at_c_str word 1 L).
    repeat match goal with
           | |- context [if ?x then _ else _] => destruct x
           end;
      eexists; (split; [reflexivity|]); split; auto; discriminate.
Qed.

(** X15: for the boolean type [parse_option] never reads behind the
    terminator of the word and never fails: it returns 0 and stores 0 or
    1; the number depends on the first two bytes of the string only, and
    is 0 for the empty word. *)
Theorem parse_option_boolean (value : opdb_value) (word : list byte) :
  exists b,
    parse_option string_size expr_eval OPDB_TYPE_BOOLEAN value word
    = Some (0, OV_numeric b)
    /\ (b = 0 \/ b = 1)
    /\ (c_str word = [] -> b = 0)
    /\ forall value' word',
        firstn 2 (c_str word') = firstn 2 (c_str word) ->
        parse_option string_size expr_eval OPDB_TYPE_BOOLEAN value' word'
        = Some (0, OV_numeric b).
Proof.
  destruct (parse_option_boolean_value value word) as (b & E & Hb & H0).
  exists b. repeat split; try assumption.
  intros value' word' H. rewrite <- E.
  assert (Len : forall i, (i < 2)%nat ->
                          ((i <= strlen word')%nat <-> (i <= strlen word)%nat)).
  { intros i I. rewrite <- !strlen_c_str_length.
    apply (f_equal (@length byte)) in H. rewrite !length_firstn in H. lia. }
  apply parse_option_boolean_chars.
  - apply char_at_prefix; try assumption; lia.
  - intros C.
    assert (L : (1 <= strlen word)%nat).
    { destruct (Nat.eq_dec (strlen word) 0) as [Z0|]; [|lia].
      unfold char_at in C. rewrite Z0 in C. cbn in C. discriminate. }
    assert (L' : (1 <= strlen word')%nat) by (apply (Len 1%nat); lia).
    apply char_at_prefix; try assumption; lia.
Qed.

(** X16: for the string type, with a member of at least one byte,
    [parse_option] returns 0 and fills the member with the word cut to
    [string_size - 1] bytes, a terminator at the last index included. *)
Theorem parse_option_string (value : opdb_value) (word : list byte) :
  (1 <= string_size)%nat ->
  exists s,
    parse_option string_size expr_eval OPDB_TYPE_STRING value word
    = Some (0, OV_string s)
    /\ length s = string_size
    /\ nth_error s (string_size - 1) = Some x00
    /\ c_str s = firstn (string_size - 1) (c_str word).
Proof.
  intros H. unfold parse_option. eexists. split; [reflexivity|].
  assert (M : 1 <= Z.of_nat string_size
              <= Z.of_nat (length (repeat x00 string_size)))
    by (rewrite repeat_length; lia).
  pose proof (copy_out_shape (repeat x00 string_size) (c_str word)
                             (Z.of_nat string_size) M) as S.
  pose proof (ret_name_c_str (repeat x00 string_size) (c_str word)
                             (Z.of_nat string_size) (c_str_nonul word) M) as C.
  rewrite Nat2Z.id in S, C.
  replace (Z.to_nat (Z.of_nat string_size - 1)) with (string_size - 1)%nat
    in C by lia.
  split; [|split; [|exact C]].
  - rewrite S, length_app, length_firstn, length_app, repeat_length. simpl.
    rewrite length_skipn, repeat_length. lia.
  - rewrite S, nth_error_app2;
      rewrite length_firstn, length_app, repeat_length; [|lia].
    replace (string_size - 1 -
             Nat.min (string_size - 1) (length (c_str word) + string_size))%nat
      with O by lia.
    reflexivity.
Qed.

End OptionFacts.

(** * The further properties at sample tables *)

(** X3: a name of 70 bytes is stored as its first 63 bytes. *)
Lemma key_init_truncates_witness :
  Z.of_nat (strlen name_long) <= INT_MAX
  /\ sym_name (sym_key_init name_long) = firstn 63 (c_str name_long).
Proof.
  assert (B : Z.of_nat (strlen name_long) <= INT_MAX)
    by (vm_compute; discriminate).
  split; [exact B|].
  destruct (key_init_truncates name_long 0) as (_ & _ & _ & _ & _ & _ & H).
  apply (H B).
Defined.

(** X4: two names of 70 bytes with the same first 63 bytes. *)
Lemma stab_same_prefix_same_symbol_witness :
  stab_get (table_of [(name_long_1, 0x1000)]) name_long_2 0 = (0, 0x1000).
Proof.
  destruct (stab_same_prefix_same_symbol 32 name_long_1 name_long_2)
    with (st := table_of [(name_long_1, 0x1000)]) as (G & _).
  - vm_compute. discriminate.
  - vm_compute. discriminate.
  - reflexivity.
  - rewrite <- G. reflexivity.
Defined.

(** X5: setting "b" leaves "a" where it was. *)
Lemma stab_set_get_frame_witness :
  stab_get (table_of [(name_a, 0x100); (name_b, 0x200)]) name_a 0
  = (0, 0x100).
Proof.
  change (table_of [(name_a, 0x100); (name_b, 0x200)])
    with (fst (stab_set 32 true true (table_of [(name_a, 0x100)])
                        name_b 0x200)).
  rewrite (stab_set_get_frame 32 true true (table_of [(name_a, 0x100)])
                              name_b name_a 0x200).
  - reflexivity.
  - left. vm_compute. discriminate.
Defined.

(** X6: setting "b" leaves the address entry of "a". *)
Lemma stab_set_entry_frame_witness :
  entry (table_of [(name_a, 0x100); (name_b, 0x200)]) 0x100 name_a.
Proof.
  change (table_of [(name_a, 0x100); (name_b, 0x200)])
    with (fst (stab_set 32 true true (table_of [(name_a, 0x100)])
                        name_b 0x200)).
  apply (stab_set_entry_frame 32 true true (table_of [(name_a, 0x100)])
                              name_b name_a 0x200 0x100).
  - reflexivity.
  - vm_compute. discriminate.
  - vm_compute. now left.
Defined.

(** X7: deleting "b" from a table with "a" and "b". *)
Lemma stab_del_frame_witness :
  stab_get (fst (stab_del (table_of [(name_a, 0x100); (name_b, 0x200)])
                          name_b)) name_a 0
  = (0, 0x100).
Proof.
  destruct (stab_del_frame 32 (table_of [(name_a, 0x100); (name_b, 0x200)])
                           name_b eq_refl) as (_ & G & _).
  rewrite G.
  - reflexivity.
  - vm_compute. discriminate.
Defined.

(** X8: "b" set and deleted again on a table with "a". *)
Lemma stab_set_del_restores_witness :
  same_records (table_of [(name_a, 0x100)])
               (fst (stab_del (table_of [(name_a, 0x100); (name_b, 0x200)])
                              name_b)).
Proof.
  apply (stab_set_del_restores 32 true true (table_of [(name_a, 0x100)])
                               (table_of [(name_a, 0x100); (name_b, 0x200)])
                               name_b 0x200); reflexivity.
Defined.

(** X9: "a" deleted and set again to 0x100. *)
Lemma stab_del_set_restores_witness :
  same_records
    (table_of [(name_a, 0x100); (name_b, 0x200)])
    (fst (stab_set 32 true true
                   (fst (stab_del (table_of [(name_a, 0x100); (name_b, 0x200)])
                                  name_a))
                   name_a 0x100)).
Proof.
  apply (stab_del_set_restores 32 true true
           (table_of [(name_a, 0x100); (name_b, 0x200)]) _ name_a 0x100);
    reflexivity.
Defined.

(** X10: "base" of the spec's test case, here "foo" at 0x2000. *)
Lemma stab_set_nearest_exact_witness :
  exists st',
    stab_nearest 32 (table_of [(name_foo, 0x2000)]) 0x2000 (repeat x01 8) 8 7
    = (st', 0, [x66; x6f; x6f; x00; x00; x00; x00; x00], 0).
Proof.
  destruct (stab_set_nearest_exact 32 true true stab_new
              (table_of [(name_foo, 0x2000)]) name_foo 0x2000
              eq_refl eq_refl (repeat x01 8) 8 7)
    as (st' & b & n & E & _).
  exists st'. change (to_address 32 0x2000) with 0x2000 in E.
  rewrite E. pose proof E as E2. vm_compute in E2. injection E2 as _ <-.
  reflexivity.
Defined.

(** X11: 0x2005 resolves to "foo" + 5, and "foo" is at 0x2000. *)
Lemma stab_nearest_get_roundtrip_witness :
  stab_get (table_of [(name_foo, 0x2000)])
           (c_str (snd (fst (stab_nearest 32 (table_of [(name_foo, 0x2000)])
                                          0x2005 (repeat x01 64) 64 0)))) 0
  = (0, 0x2005 - 5).
Proof.
  destruct (stab_nearest_get_roundtrip
              32 (table_of [(name_foo, 0x2000)])
              (fst (fst (fst (stab_nearest 32 (table_of [(name_foo, 0x2000)])
                                           0x2005 (repeat x01 64) 64 0))))
              0x2005 (repeat x01 64)
              (snd (fst (stab_nearest 32 (table_of [(name_foo, 0x2000)])
                                      0x2005 (repeat x01 64) 64 0)))
              64 0 5 eq_refl eq_refl eq_refl) as [_ G].
  - simpl. lia.
  - reflexivity.
  - exact (G 0).
Defined.

(** X12: a buffer of 8 bytes, of which [stab_nearest] may use 4. *)
Lemma stab_nearest_buffer_bounds_witness :
  skipn 4 (snd (fst (stab_nearest 32 (table_of [(name_long, 0x10)]) 0x20
                                  (repeat x01 8) 4 0)))
  = repeat x01 4.
Proof.
  destruct (stab_nearest_buffer_bounds 32 (table_of [(name_long, 0x10)]) 0x20
                                       (repeat x01 8) 4 0) as (_ & H & _).
  - simpl. lia.
  - exact H.
Defined.

(** X13 at the table left by the failed overwrite. *)
Lemma stab_reachable_keys_witness : NoDup (entries table_after_failed_overwrite).
Proof.
  apply (stab_reachable_keys 32 table_after_failed_overwrite).
  apply (reach_set 32 _ true false name_x 0x20).
  apply (reach_set 32 _ true true name_x 0x10).
  apply reach_new.
Defined.

(** X14: with "a" at 0x100 and "c" at 0x300, 0x2ff resolves to "a" + 0x1ff,
    and 0x180 to "a" + 0x80. *)
Lemma stab_nearest_range_witness :
  exists st'',
    stab_nearest 32
      (fst (fst (fst (stab_nearest 32
                        (table_of [(name_a, 0x100); (name_c, 0x300)])
                        0x2ff (repeat x01 8) 8 0))))
      0x180 (repeat x01 8) 8 0
    = (st'', 0, [x61; x00; x00; x00; x00; x00; x00; x00], 0x80).
Proof.
  destruct (stab_nearest_range
              32 (table_of [(name_a, 0x100); (name_c, 0x300)])
              (fst (fst (fst (stab_nearest 32
                                (table_of [(name_a, 0x100); (name_c, 0x300)])
                                0x2ff (repeat x01 8) 8 0))))
              0x2ff (repeat x01 8) [x61; x00; x00; x00; x00; x00; x00; x00]
              8 0 0x1ff eq_refl eq_refl eq_refl) as [H _].
  apply (H 0x180 0). simpl. lia.
Defined.

(** X16: "foo" parsed into a member of 3 bytes. *)
Lemma parse_option_string_witness :
  parse_option 3 (fun _ => (0, None)) OPDB_TYPE_STRING (OV_numeric 0) name_foo
  = Some (0, OV_string [x66; x6f; x00]).
Proof.
  destruct (parse_option_string 3 (fun _ => (0, None)) (OV_numeric 0) name_foo)
    as (s & E & _); [lia|].
  rewrite E. f_equal. vm_compute in E. now injection E as <-.
Defined.

(** X17: a new name on a table with "a". *)
Lemma stab_record_count_witness :
  length (entries (table_of [(name_a, 0x100); (name_b, 0x200)])) = 2%nat.
Proof.
  destruct (stab_record_count 32 (table_of [(name_a, 0x100)]) name_b
                              eq_refl eq_refl) as [H _].
  destruct (H true true 0x200 (table_of [(name_a, 0x100); (name_b, 0x200)])
              eq_refl) as [_ E].
  exact E.
Defined.

(** X18 at a table of two symbols. *)
Lemma stab_history_same_count_witness :
  length (entries (table_of [(name_c, 0x300); (name_a, 0x100)]))
  = length (items (sym (table_of [(name_c, 0x300); (name_a, 0x100)]))).
Proof.
  apply (stab_history_same_count 32).
  apply (hist_set 32 (table_of [(name_c, 0x300)]) _ true true name_a 0x100);
    [|reflexivity].
  apply (hist_set 32 stab_new _ true true name_c 0x300); [|reflexivity].
  apply hist_new.
Defined.
